(** * The logarithmic spin-to-qubit mapper

    A shallow embedding of
    [qiskit_nature/second_q/mappers/logarithmic_mapper.py]
    (class [LogarithmicMapper]) and the properties of its three methods
    [_embed_matrix], [_logarithmic_encoding] and [_map_single].

    Conventions of the embedding.
    - Python [int]s are [Z]; a [Fraction] is a [Q].
    - A numpy 2D array is the list of its rows.  Its entries (complex128 in
      the source) are taken in a commutative ring [C] with exact arithmetic.
    - A [SparsePauliOp] is represented by the dense matrix it denotes;
      [a @ b] is the matrix product, [a ^ b] the Kronecker product,
      [a + b] the entrywise sum and [c * a] the scaling by [c].
      [SparsePauliOp.from_operator(Operator(m))] denotes [m].
      The mapper multiplies and adds only operators on the same number of
      qubits, the encoded operators of one spin and their tensor products
      over one register (lemma [logarithmic_encoding_shape]); what Qiskit
      does with operands of different sizes is not represented.
    - [np.block] is applied to blocks whose shapes fit, which they do when
      the embedded matrix is square; what numpy does with other blocks is
      not represented, and the statements on [np.block] are on square
      matrices.
    - A raised Python exception is the [Raise] case of [result].
    - The axis [Z] is written [Z_], [Z] being the type of the integers. *)

From Stdlib Require Import ZArith QArith Ring Lia.
From stdpp Require Import base option list gmap.

Local Close Scope Q_scope.
Local Open Scope Z_scope.

(** ** Exceptions and results *)

(** The exceptions that the module and the built-in operations it calls
    can raise, and their Python classes. *)
Inductive exception : Type :=
| MatrixDoesNotFit (num_qubits : Z)
    (* ValueError(f"The given matrix does not fit into the space spanned by
       {num_qubits} qubits."), raised by _embed_matrix *)
| NegativeShiftCount        (* ValueError: a << b with b < 0 *)
| FloatNaNToInteger         (* ValueError: int(nan) *)
| FloatInfinityToInteger    (* OverflowError: int(inf), int(-inf) *)
| ReduceOfEmptySequence.    (* TypeError: functools.reduce on an empty
                               sequence without initial value *)

Inductive exception_class : Type := ValueError | TypeError | OverflowError.

Definition class_of (e : exception) : exception_class :=
  match e with
  | MatrixDoesNotFit _ | NegativeShiftCount | FloatNaNToInteger => ValueError
  | FloatInfinityToInteger => OverflowError
  | ReduceOfEmptySequence => TypeError
  end.

Inductive result (A : Type) : Type :=
| Ok (a : A)
| Raise (e : exception).
Arguments Ok {A} a.
Arguments Raise {A} e.

#[global] Instance result_ret : MRet result := λ A a, Ok a.
#[global] Instance result_bind : MBind result := λ A B f r,
  match r with
  | Ok a => f a
  | Raise e => Raise e
  end.

(** The error kinds named by the specification, and the kind each
    exception stands for: the [ValueError] of [_embed_matrix] is the only
    error the module raises itself; the others come from the built-in
    operations and stand for no error kind of the specification. *)
Inductive error_kind : Type :=
| InvalidSpin | InvalidDimension | UnknownAxis | IndexOutOfRange | EmptyOperator.

Definition error_kind_of (e : exception) : option error_kind :=
  match e with
  | MatrixDoesNotFit _ => Some InvalidDimension
  | _ => None
  end.

(** [functools.reduce(f, l)] without an initial value. *)
Definition reduce {A : Type} (f : A → A → A) (l : list A) : result A :=
  match l with
  | [] => Raise ReduceOfEmptySequence
  | x :: xs => Ok (foldl f x xs)
  end.

(** [a << b] on Python integers. *)
Definition lshift (a b : Z) : result Z :=
  if b <? 0 then Raise NegativeShiftCount else Ok (Z.shiftl a b).

(** [int(q)] for a [Fraction]: truncation toward zero. *)
Definition int_of_Fraction (q : Q) : Z := Z.quot (Qnum q) (Z.pos (Qden q)).

(** [int(np.ceil(np.log2(d)))] with the logarithm taken in exact
    arithmetic.  [np.log2(0)] is [-inf] and [np.log2] of a negative number
    is [nan]; [int] refuses both.  The source evaluates [np.log2] in double
    precision: the value agrees with the exact one as long as the rounded
    logarithm of [d] stays above the integer below it, which fails from
    about [2^49] on (at [d = 2^49 + 1] the logarithm rounds to [49.0] and
    the source computes 49, where the exact ceiling is 50).  The qubit
    counts in the statements below are those of the exact logarithm. *)
Definition ceil_log2 (d : Z) : result Z :=
  if d =? 0 then Raise FloatInfinityToInteger
  else if d <? 0 then Raise FloatNaNToInteger
  else Ok (Z.log2_up d).

(** ** Scalars *)

Class Scalar (C : Type) : Type := {
  czero : C;
  cone : C;
  cadd : C → C → C;
  cmul : C → C → C;
  csub : C → C → C;
  copp : C → C
}.

Class ScalarRing (C : Type) `{Scalar C} : Prop :=
  scalar_ring : ring_theory czero cone cadd cmul csub copp (@eq C).

Declare Scope scalar_scope.
Delimit Scope scalar_scope with S.
Notation "0" := czero : scalar_scope.
Notation "1" := cone : scalar_scope.
Infix "+" := cadd : scalar_scope.
Infix "*" := cmul : scalar_scope.

(** ** Matrices and the numpy operations of the module *)

Abbreviation Matrix C := (list (list C)).

Inductive axis : Type := X | Y | Z_.

#[global] Instance axis_eq_dec : EqDecision axis.
Proof. solve_decision. Defined.

Section Numpy.
Context {C : Type} `{Scalar C}.

(** [np.zeros((r, c), dtype=complex)] *)
Definition np_zeros (r c : Z) : Matrix C :=
  replicate (Z.to_nat r) (replicate (Z.to_nat c) 0%S).

(** [np.eye(n)] *)
Definition np_eye (n : Z) : Matrix C :=
  (λ i, (λ j, if decide (i = j) then 1%S else 0%S) <$> seq 0 (Z.to_nat n))
    <$> seq 0 (Z.to_nat n).

(** [m * p] for an array [m] and a scalar [p] *)
Definition np_mul_scalar (m : Matrix C) (p : C) : Matrix C :=
  (λ row : list C, (λ x, (x * p)%S) <$> row) <$> m.

(** [np.block([[a, b], [c, d]])] for blocks whose shapes fit: rows of [a]
    extended by the rows of [b], above the rows of [c] extended by the
    rows of [d].  For blocks that do not fit numpy raises a [ValueError],
    which this function does not represent; the blocks that
    [_embed_matrix] passes fit exactly when its matrix is square, and the
    statements on a padded matrix take a square one. *)
Definition np_block (a b c d : Matrix C) : Matrix C :=
  zip_with app a b ++ zip_with app c d.

(** [matrix.shape[0]] *)
Definition shape0 (m : Matrix C) : Z := Z.of_nat (length m).

(** The entry in row [i] and column [j], if there is one. *)
Definition entry (m : Matrix C) (i j : nat) : option C :=
  row ← m !! i; row !! j.

(** [m] has [r] rows, each of [c] entries. *)
Definition has_shape (r c : nat) (m : Matrix C) : Prop :=
  length m = r ∧ Forall (λ row, length row = c) m.

(** *** The operations of [SparsePauliOp] on the denoted matrices *)

(** the row vector [v] times the matrix [b] *)
Definition vec_mat (v : list C) (b : Matrix C) : list C :=
  foldr (zip_with cadd) (replicate (length (default [] (head b))) 0%S)
        (zip_with (λ x (row : list C), cmul x <$> row) v b).

(** [a @ b] *)
Definition dot (a b : Matrix C) : Matrix C := (λ v : list C, vec_mat v b) <$> a.

(** [a ^ b] *)
Definition tensor (a b : Matrix C) : Matrix C :=
  a ≫= λ ra : list C, (λ rb : list C, ra ≫= λ x, cmul x <$> rb) <$> b.

(** [a + b] *)
Definition add (a b : Matrix C) : Matrix C := zip_with (zip_with cadd) a b.

(** [coeff * a] *)
Definition rmul (coeff : C) (a : Matrix C) : Matrix C :=
  (λ row : list C, cmul coeff <$> row) <$> a.
End Numpy.

(** ** The mapper *)

Record LogarithmicMapper (C : Type) : Type := {
  _padding : C;
  _embed_upper : bool
}.
Arguments _padding {C} _.
Arguments _embed_upper {C} _.

(** One factor of a term is an axis and a site index; a term is the list of
    its factors with a coefficient. *)
Abbreviation factor := (axis * Z)%type.
Abbreviation term C := (list factor * C)%type.

(** What the module reads of a [SpinOp]. *)
Record SpinOp (C : Type) : Type := {
  spin : Q;
  register_length : Z;
  terms : list (term C)
}.
Arguments spin {C} _.
Arguments register_length {C} _.
Arguments terms {C} _.

(** The two methods of [SpinOp] the module calls; the class is not part of
    this file's source: [SpinOp_matrix a s] stands for
    [SpinOp.x(s).to_matrix()] (resp. [y], [z]) and [index_order ts] for the
    term sequence of [op.index_order()] when [ts] is the one of [op]. *)
Class SpinOpMethods (C : Type) : Type := {
  SpinOp_matrix : axis → Q → Matrix C;
  index_order : list (term C) → list (term C)
}.

Section Mapper.
Context {C : Type} `{Scalar C}.

Definition embed_matrix (self : LogarithmicMapper C)
    (matrix : Matrix C) (num_qubits : Z) : result (Matrix C) :=
  full_dim ← lshift 1 num_qubits;
  let subs_dim := shape0 matrix in
  let dim_diff := full_dim - subs_dim in
  if dim_diff =? 0 then
    Ok matrix
  else if 0 <? dim_diff then
    if _embed_upper self then
      Ok (np_block matrix (np_zeros subs_dim dim_diff)
                   (np_zeros dim_diff subs_dim)
                   (np_mul_scalar (np_eye dim_diff) (_padding self)))
    else
      Ok (np_block (np_mul_scalar (np_eye dim_diff) (_padding self))
                   (np_zeros dim_diff subs_dim)
                   (np_zeros subs_dim dim_diff) matrix)
  else
    Raise (MatrixDoesNotFit num_qubits).

(** [dspin] and [num_qubits] of [_logarithmic_encoding] *)
Definition dspin_of (spin : Q) : Z := int_of_Fraction (2 * spin + 1)%Q.
Definition num_qubits_of (spin : Q) : result Z := ceil_log2 (dspin_of spin).

Context `{SpinOpMethods C}.

Definition logarithmic_encoding (self : LogarithmicMapper C) (spin : Q)
    : result (Matrix C * Matrix C * Matrix C * Matrix C) :=
  let dspin := dspin_of spin in
  num_qubits ← ceil_log2 dspin;
  let mx := SpinOp_matrix X spin in
  let my := SpinOp_matrix Y spin in
  let mz := SpinOp_matrix Z_ spin in
  let mi := np_eye dspin in
  ex ← embed_matrix self mx num_qubits;
  ey ← embed_matrix self my num_qubits;
  ez ← embed_matrix self mz num_qubits;
  ei ← embed_matrix self mi num_qubits;
  mret (ex, ey, ez, ei).

(** [char_map] of [_map_single] *)
Definition char_map (spinx spiny spinz : Matrix C) (op : axis) : Matrix C :=
  match op with X => spinx | Y => spiny | Z_ => spinz end.

(** The body of the inner loop:
    [mat[idx] = mat[idx] @ char_map[op] if idx in mat else char_map[op]] *)
Definition accumulate_step (cm : axis → Matrix C)
    (mat : gmap Z (Matrix C)) (f : factor) : gmap Z (Matrix C) :=
  let '(op, idx) := f in
  <[idx := match mat !! idx with
           | Some m => dot m (cm op)
           | None => cm op
           end]> mat.

(** The inner loop, from the empty [mat] *)
Definition accumulate (cm : axis → Matrix C) (factors : list factor)
    : gmap Z (Matrix C) :=
  foldl (accumulate_step cm) ∅ factors.

(** [[mat[i] if i in mat else identity for i in range(register_length)]] *)
Definition operatorlist (identity : Matrix C) (mat : gmap Z (Matrix C))
    (register_length : Z) : list (Matrix C) :=
  (λ i, default identity (mat !! i)) <$> seqZ 0 register_length.

(** One round of the outer loop: the operator appended for one term *)
Definition map_term (cm : axis → Matrix C) (identity : Matrix C)
    (register_length : Z) (t : term C) : result (Matrix C) :=
  let '(factors, coeff) := t in
  let mat := accumulate cm factors in
  let ops := operatorlist identity mat register_length in
  big ← reduce tensor (reverse ops);
  mret (rmul coeff big).

(** The outer loop and the final sum, on the terms of the ordered operator *)
Definition map_terms (cm : axis → Matrix C) (identity : Matrix C)
    (register_length : Z) (ts : list (term C)) : result (Matrix C) :=
  qubit_ops_list ← mapM (map_term cm identity register_length) ts;
  reduce add qubit_ops_list.

Definition map_single (self : LogarithmicMapper C) (second_q_op : SpinOp C)
    (register_length' : option Z) : result (Matrix C) :=
  let register_length := default (register_length second_q_op) register_length' in
  '(spinx, spiny, spinz, identity) ← logarithmic_encoding self (spin second_q_op);
  let ordered_terms := index_order (terms second_q_op) in
  map_terms (char_map spinx spiny spinz) identity register_length ordered_terms.
End Mapper.

(** ** Reference descriptions used by the statements below *)

Section Reference.
Context {C : Type} `{Scalar C}.

(** Entry [(i, j)] of the block-diagonal matrix whose top-left block, of
    size [k], has the entries [a] and whose bottom-right block has the
    entries [b]; outside the two blocks the entry is zero. *)
Definition block_diag (k : nat) (a b : nat → nat → option C)
    (i j : nat) : option C :=
  if decide (i < k ∧ j < k)%nat then a i j
  else if decide (k ≤ i ∧ k ≤ j)%nat then b (i - k)%nat (j - k)%nat
  else Some 0%S.

(** Entry [(i, j)] of [p] times the identity. *)
Definition scaled_identity (p : C) (i j : nat) : option C :=
  Some (if decide (i = j) then p else 0%S).

(** The axes of the factors of a term that act on site [i], in the order
    of the term. *)
Definition factors_at (i : Z) (factors : list factor) : list axis :=
  (filter (λ f : factor, f.2 = i) factors).*1.

(** The ordered matrix product of the encoded operators of a list of
    axes: each later one multiplies the product of the earlier ones from
    the right.  There is no product of no operator. *)
Definition site_product (cm : axis → Matrix C) (axes : list axis)
    : option (Matrix C) :=
  match axes with
  | [] => None
  | a :: rest => Some (foldl (λ m b, dot m (cm b)) (cm a) rest)
  end.

(** The tensor product of the per-site operators [ops], listed from
    site 0 on: the operator of the last site is the leftmost factor and
    the one of site 0 the rightmost.  There is no product over no site. *)
Fixpoint site_tensor (ops : list (Matrix C)) : option (Matrix C) :=
  match ops with
  | [] => None
  | o :: rest =>
      match site_tensor rest with
      | None => Some o
      | Some high => Some (tensor high o)
      end
  end.

(** A reordering of the terms of an operator keeps the order per site
    when each term it yields has, at every site, the factors of one term
    of the operator in their order. *)
Definition per_site_stable (order : list (term C) → list (term C)) : Prop :=
  ∀ ts t' c', (t', c') ∈ order ts →
    ∃ t c, (t, c) ∈ ts ∧ ∀ i, factors_at i t' = factors_at i t.
End Reference.

(** ** An instance for examples

    Scalars are the Gaussian integers, as pairs of the real and the
    imaginary part.  The matrices of [SpinOp] are taken to be the Pauli
    matrices (twice the matrices of spin 1/2), and [index_order] the stable
    sort of the factors of each term by site index. *)

Module Pauli.
Abbreviation gauss := (Z * Z)%type.

#[global] Instance gauss_scalar : Scalar gauss := {|
  czero := (0, 0);
  cone := (1, 0);
  cadd a b := (a.1 + b.1, a.2 + b.2);
  cmul a b := (a.1 * b.1 - a.2 * b.2, a.1 * b.2 + a.2 * b.1);
  csub a b := (a.1 - b.1, a.2 - b.2);
  copp a := (- a.1, - a.2)
|}.

Definition sigma (a : axis) : Matrix gauss :=
  match a with
  | X => [[(0, 0); (1, 0)]; [(1, 0); (0, 0)]]
  | Y => [[(0, 0); (0, -1)]; [(0, 1); (0, 0)]]
  | Z_ => [[(1, 0); (0, 0)]; [(0, 0); (-1, 0)]]
  end.

Definition sigma_0 : Matrix gauss := [[(1, 0); (0, 0)]; [(0, 0); (1, 0)]].

Fixpoint insert_factor (f : factor) (l : list factor) : list factor :=
  match l with
  | [] => [f]
  | g :: l' =>
      if decide (f.2 ≤ g.2) then f :: g :: l' else g :: insert_factor f l'
  end.

Definition sort_factors (t : list factor) : list factor :=
  foldr insert_factor [] t.

#[global] Instance methods : SpinOpMethods gauss := {|
  SpinOp_matrix a _ := sigma a;
  index_order ts := (λ tc : term gauss, (sort_factors tc.1, tc.2)) <$> ts
|}.

Definition mapper (p : Z) (upper : bool) : LogarithmicMapper gauss :=
  {| _padding := (p, 0); _embed_upper := upper |}.

Definition m3 : Matrix gauss :=
  [[(1, 0); (2, 0); (3, 0)];
   [(4, 0); (5, 0); (6, 0)];
   [(7, 0); (8, 0); (9, 0)]].
End Pauli.

(** * Properties *)

(** ** Entries and shapes of the numpy constructions *)

Section NumpyFacts.
Context {C : Type} `{ScalarRing C}.
Local Open Scope nat_scope.

Add Ring scalar_ring_numpy : scalar_ring.

Lemma has_shape_np_zeros (r c : nat) :
  has_shape (C:=C) r c (np_zeros (Z.of_nat r) (Z.of_nat c)).
Proof.
  unfold np_zeros. rewrite !Nat2Z.id. split.
  - apply length_replicate.
  - apply Forall_replicate, length_replicate.
Qed.

Lemma has_shape_np_eye (n : nat) : has_shape (C:=C) n n (np_eye (Z.of_nat n)).
Proof.
  unfold np_eye. rewrite Nat2Z.id. split.
  - by rewrite length_fmap, length_seq.
  - apply Forall_fmap, Forall_forall. intros i _. simpl.
    by rewrite length_fmap, length_seq.
Qed.

Lemma has_shape_np_mul_scalar r c (m : Matrix C) p :
  has_shape r c m → has_shape r c (np_mul_scalar m p).
Proof.
  intros [Hr Hc]. split.
  - unfold np_mul_scalar. by rewrite length_fmap.
  - unfold np_mul_scalar. apply Forall_fmap.
    eapply Forall_impl; [exact Hc|]. intros row Hrow. simpl.
    by rewrite length_fmap.
Qed.

Lemma has_shape_hstack r c1 c2 (a b : Matrix C) :
  has_shape r c1 a → has_shape r c2 b → has_shape r (c1 + c2) (zip_with app a b).
Proof.
  intros [Ha Fa] [Hb Fb]. split.
  - rewrite length_zip_with. lia.
  - apply Forall_lookup. intros i row Hi.
    apply lookup_zip_with_Some in Hi as (x & y & -> & Hx & Hy).
    rewrite length_app.
    rewrite (Forall_lookup_1 _ _ _ _ Fa Hx), (Forall_lookup_1 _ _ _ _ Fb Hy).
    done.
Qed.

Lemma has_shape_vstack r1 r2 c (a b : Matrix C) :
  has_shape r1 c a → has_shape r2 c b → has_shape (r1 + r2) c (a ++ b).
Proof.
  intros [Ha Fa] [Hb Fb]. split.
  - rewrite length_app. lia.
  - by apply Forall_app.
Qed.

Lemma has_shape_np_block ra ca rd cd (a b c d : Matrix C) :
  has_shape ra ca a → has_shape ra cd b →
  has_shape rd ca c → has_shape rd cd d →
  has_shape (ra + rd) (ca + cd) (np_block a b c d).
Proof.
  intros. unfold np_block.
  apply has_shape_vstack; by apply has_shape_hstack.
Qed.

Lemma entry_hstack c1 (a b : Matrix C) i j :
  Forall (λ row, length row = c1) a → length a = length b →
  entry (zip_with app a b) i j =
    if decide (j < c1) then entry a i j else entry b i (j - c1).
Proof.
  intros Fa Hab. unfold entry. rewrite lookup_zip_with.
  destruct (a !! i) as [x|] eqn:Hx; simpl.
  - destruct (b !! i) as [y|] eqn:Hy; simpl.
    + pose proof (Forall_lookup_1 _ _ _ _ Fa Hx) as Hlen. simpl in Hlen.
      case_decide.
      * apply lookup_app_l. lia.
      * rewrite lookup_app_r by lia. by rewrite Hlen.
    + apply lookup_lt_Some in Hx. apply lookup_ge_None in Hy. lia.
  - apply lookup_ge_None in Hx.
    assert (b !! i = None) as -> by (apply lookup_ge_None; lia).
    by case_decide.
Qed.

Lemma entry_vstack (a b : Matrix C) i j :
  entry (a ++ b) i j =
    if decide (i < length a) then entry a i j else entry b (i - length a) j.
Proof.
  unfold entry. case_decide.
  - by rewrite lookup_app_l.
  - by rewrite lookup_app_r by lia.
Qed.

Lemma entry_np_block ra ca cc (a b c d : Matrix C) i j :
  has_shape ra ca a → length b = ra →
  Forall (λ row, length row = cc) c → length c = length d →
  entry (np_block a b c d) i j =
    if decide (i < ra) then
      if decide (j < ca) then entry a i j else entry b i (j - ca)
    else
      if decide (j < cc) then entry c (i - ra) j else entry d (i - ra) (j - cc).
Proof.
  intros [Ha Fa] Hb Fc Hcd. unfold np_block.
  rewrite entry_vstack, length_zip_with, Ha, Hb, Nat.min_id.
  case_decide.
  - apply entry_hstack; [done | congruence].
  - by apply entry_hstack.
Qed.

Lemma entry_np_zeros (r c : nat) i j :
  i < r → j < c → entry (C:=C) (np_zeros (Z.of_nat r) (Z.of_nat c)) i j = Some 0%S.
Proof.
  intros Hi Hj. unfold entry, np_zeros. rewrite !Nat2Z.id.
  rewrite lookup_replicate_2 by done. simpl.
  by apply lookup_replicate_2.
Qed.

Lemma entry_np_eye (n : nat) i j :
  i < n → j < n →
  entry (C:=C) (np_eye (Z.of_nat n)) i j = Some (if decide (i = j) then 1%S else 0%S).
Proof.
  intros Hi Hj. unfold entry, np_eye. rewrite Nat2Z.id.
  rewrite list_lookup_fmap, lookup_seq_lt by done. simpl.
  by rewrite list_lookup_fmap, lookup_seq_lt by done.
Qed.

Lemma entry_np_mul_scalar (m : Matrix C) p i j :
  entry (np_mul_scalar m p) i j = (λ x, (x * p)%S) <$> entry m i j.
Proof.
  unfold entry, np_mul_scalar. rewrite list_lookup_fmap.
  destruct (m !! i) as [row|]; simpl; [|done].
  by rewrite list_lookup_fmap.
Qed.

(** the entries of [np.eye(n) * p] *)
Lemma entry_scaled_eye (n : nat) (p : C) i j :
  i < n → j < n →
  entry (np_mul_scalar (np_eye (Z.of_nat n)) p) i j =
    Some (if decide (i = j) then p else 0%S).
Proof.
  intros Hi Hj. rewrite entry_np_mul_scalar, entry_np_eye by done. simpl.
  f_equal. case_decide; ring.
Qed.
End NumpyFacts.

(** ** [_embed_matrix] *)

Section EmbedMatrix.
Context {C : Type} `{ScalarRing C}.

Lemma lshift_1 (n : Z) : 0 ≤ n → lshift 1 n = Ok (2 ^ n).
Proof.
  intros Hn. unfold lshift.
  destruct (Z.ltb_spec n 0); [lia|].
  by rewrite Z.shiftl_1_l.
Qed.

Lemma embed_matrix_upper (self : LogarithmicMapper C) (M : Matrix C)
    (n : Z) (d diff : nat) :
  0 ≤ n → length M = d → 2 ^ n = Z.of_nat (d + diff) → (0 < diff)%nat →
  _embed_upper self = true →
  embed_matrix self M n =
    Ok (np_block M (np_zeros (Z.of_nat d) (Z.of_nat diff))
                 (np_zeros (Z.of_nat diff) (Z.of_nat d))
                 (np_mul_scalar (np_eye (Z.of_nat diff)) (_padding self))).
Proof.
  intros Hn Hd Hfull Hdiff Hup. unfold embed_matrix.
  rewrite lshift_1 by done. simpl. unfold shape0. rewrite Hd, Hfull, Hup.
  replace (Z.of_nat (d + diff) - Z.of_nat d) with (Z.of_nat diff) by lia.
  destruct (Z.eqb_spec (Z.of_nat diff) 0); [lia|].
  destruct (Z.ltb_spec 0 (Z.of_nat diff)); [done|lia].
Qed.

Lemma embed_matrix_lower (self : LogarithmicMapper C) (M : Matrix C)
    (n : Z) (d diff : nat) :
  0 ≤ n → length M = d → 2 ^ n = Z.of_nat (d + diff) → (0 < diff)%nat →
  _embed_upper self = false →
  embed_matrix self M n =
    Ok (np_block (np_mul_scalar (np_eye (Z.of_nat diff)) (_padding self))
                 (np_zeros (Z.of_nat diff) (Z.of_nat d))
                 (np_zeros (Z.of_nat d) (Z.of_nat diff)) M).
Proof.
  intros Hn Hd Hfull Hdiff Hup. unfold embed_matrix.
  rewrite lshift_1 by done. simpl. unfold shape0. rewrite Hd, Hfull, Hup.
  replace (Z.of_nat (d + diff) - Z.of_nat d) with (Z.of_nat diff) by lia.
  destruct (Z.eqb_spec (Z.of_nat diff) 0); [lia|].
  destruct (Z.ltb_spec 0 (Z.of_nat diff)); [done|lia].
Qed.

Lemma block_upper_entries (M : Matrix C) (p : C) (d diff i j : nat) :
  has_shape d d M → (i < d + diff)%nat → (j < d + diff)%nat →
  entry (np_block M (np_zeros (Z.of_nat d) (Z.of_nat diff))
                  (np_zeros (Z.of_nat diff) (Z.of_nat d))
                  (np_mul_scalar (np_eye (Z.of_nat diff)) p)) i j =
    block_diag d (entry M) (scaled_identity p) i j.
Proof.
  intros HM Hi Hj.
  pose proof (has_shape_np_zeros (C:=C) d diff) as [Hz1 _].
  pose proof (has_shape_np_zeros (C:=C) diff d) as [Hz2 Fz2].
  pose proof (has_shape_np_mul_scalar _ _ _ p (has_shape_np_eye (C:=C) diff))
    as [He _].
  rewrite (entry_np_block d d d) by (done || congruence).
  unfold block_diag.
  repeat case_decide; try lia; try done.
  - apply entry_np_zeros; lia.
  - apply entry_np_zeros; lia.
  - apply entry_scaled_eye; lia.
Qed.

Lemma block_lower_entries (M : Matrix C) (p : C) (d diff i j : nat) :
  has_shape d d M → (i < d + diff)%nat → (j < d + diff)%nat →
  entry (np_block (np_mul_scalar (np_eye (Z.of_nat diff)) p)
                  (np_zeros (Z.of_nat diff) (Z.of_nat d))
                  (np_zeros (Z.of_nat d) (Z.of_nat diff)) M) i j =
    block_diag diff (scaled_identity p) (entry M) i j.
Proof.
  intros HM Hi Hj.
  pose proof (has_shape_np_zeros (C:=C) d diff) as [Hz1 Fz1].
  pose proof (has_shape_np_zeros (C:=C) diff d) as [Hz2 _].
  pose proof (has_shape_np_mul_scalar _ _ _ p (has_shape_np_eye (C:=C) diff))
    as He.
  destruct HM as [HM FM].
  rewrite (entry_np_block diff diff diff) by (done || congruence).
  unfold block_diag.
  repeat case_decide; try lia; try done.
  - apply entry_scaled_eye; lia.
  - apply entry_np_zeros; lia.
  - apply entry_np_zeros; lia.
Qed.

(** C1.  For a [d]-by-[d] matrix [M] and a qubit count [n] with
    [2^n - d > 0], [_embed_matrix] returns a [2^n]-by-[2^n] matrix that is
    block diagonal: with [embed_upper], [M] on the top-left [d]-by-[d]
    block and [padding] times the identity on the bottom-right block;
    without it, [padding] times the identity on the top-left block of
    size [2^n - d] and [M] on the bottom-right one; every entry outside
    the two diagonal blocks is zero. *)
Theorem embed_matrix_block_diagonal (self : LogarithmicMapper C)
    (M : Matrix C) (n : Z) (d : nat) :
  has_shape d d M → 0 ≤ n → 0 < 2 ^ n - Z.of_nat d →
  let full := Z.to_nat (2 ^ n) in
  ∃ F : Matrix C,
    embed_matrix self M n = Ok F ∧
    has_shape full full F ∧
    ∀ i j : nat, (i < full)%nat → (j < full)%nat →
      entry F i j =
        if _embed_upper self
        then block_diag d (entry M) (scaled_identity (_padding self)) i j
        else block_diag (full - d) (scaled_identity (_padding self)) (entry M) i j.
Proof.
  intros HM Hn Hdiff full.
  set (diff := (full - d)%nat).
  assert (2 ^ n = Z.of_nat (d + diff)) as Hfull by (subst diff full; lia).
  assert (0 < diff)%nat as Hpos by (subst diff full; lia).
  assert (full = (d + diff)%nat) as Hsum by (subst diff full; lia).
  pose proof HM as [Hlen _].
  pose proof (has_shape_np_mul_scalar _ _ _ (_padding self)
                (has_shape_np_eye (C:=C) diff)) as He.
  destruct (_embed_upper self) eqn:Hup.
  - eexists. split; [by apply (embed_matrix_upper self M n d diff)|].
    split.
    + rewrite Hsum. apply has_shape_np_block; try done;
        apply has_shape_np_zeros.
    + intros i j Hi Hj. apply block_upper_entries; [done|lia|lia].
  - eexists. split; [by apply (embed_matrix_lower self M n d diff)|].
    split.
    + rewrite Hsum, (Nat.add_comm d diff).
      apply has_shape_np_block; try done; apply has_shape_np_zeros.
    + intros i j Hi Hj. apply block_lower_entries; [done|lia|lia].
Qed.

(** When the matrix fits, [_embed_matrix] returns a square matrix of
    size [2^n]. *)
Lemma embed_matrix_shape (self : LogarithmicMapper C)
    (M : Matrix C) (n : Z) (d : nat) :
  has_shape d d M → 0 ≤ n → Z.of_nat d ≤ 2 ^ n →
  ∃ F : Matrix C,
    embed_matrix self M n = Ok F ∧
    has_shape (Z.to_nat (2 ^ n)) (Z.to_nat (2 ^ n)) F.
Proof.
  intros HM Hn Hle.
  set (full := Z.to_nat (2 ^ n)).
  set (diff := (full - d)%nat).
  assert (2 ^ n = Z.of_nat (d + diff)) as Hfull by (subst diff full; lia).
  assert (full = (d + diff)%nat) as Hsum by (subst diff full; lia).
  pose proof HM as [Hlen _].
  destruct (decide (diff = 0%nat)) as [Hz|Hnz].
  - exists M. split.
    + unfold embed_matrix. rewrite lshift_1 by done. simpl.
      unfold shape0. rewrite Hlen, Hfull.
      destruct (Z.eqb_spec (Z.of_nat (d + diff) - Z.of_nat d) 0); [done|lia].
    + replace full with d by lia. done.
  - pose proof (has_shape_np_mul_scalar _ _ _ (_padding self)
                  (has_shape_np_eye (C:=C) diff)) as He.
    destruct (_embed_upper self) eqn:Hup.
    + eexists. split.
      * apply (embed_matrix_upper self M n d diff); (done || lia).
      * rewrite Hsum. apply has_shape_np_block; try done;
          apply has_shape_np_zeros.
    + eexists. split.
      * apply (embed_matrix_lower self M n d diff); (done || lia).
      * rewrite Hsum, (Nat.add_comm d diff).
        apply has_shape_np_block; try done; apply has_shape_np_zeros.
Qed.

Lemma embed_matrix_same_dim (self : LogarithmicMapper C)
    (M : Matrix C) (n : Z) :
  0 ≤ n → shape0 M = 2 ^ n → embed_matrix self M n = Ok M.
Proof.
  intros Hn Hd. unfold embed_matrix.
  rewrite lshift_1 by done. simpl. rewrite Hd, Z.sub_diag. done.
Qed.

(** C6.  When the matrix already has [2^n] rows for the requested qubit
    count [n], [_embed_matrix] returns it unchanged, whatever the padding
    and the [embed_upper] flag. *)
Theorem embed_matrix_noop (padding : C) (embed_upper : bool)
    (M : Matrix C) (n : Z) :
  0 ≤ n → shape0 M = 2 ^ n →
  embed_matrix {| _padding := padding; _embed_upper := embed_upper |} M n = Ok M.
Proof.
  intros Hn Hd. unfold embed_matrix.
  rewrite lshift_1 by done. cbn [mbind result_bind].
  assert (2 ^ n - shape0 M = 0) as -> by lia.
  reflexivity.
Qed.

Lemma dspin_of_integer (s : Q) (d : Z) :
  (2 * s + 1 == inject_Z d)%Q → dspin_of s = d.
Proof.
  intros Heq. unfold dspin_of, int_of_Fraction.
  unfold Qeq in Heq. simpl Qnum in Heq at 2. simpl Qden in Heq at 1.
  rewrite Z.mul_1_r in Heq. rewrite Heq.
  apply Z.quot_mul. done.
Qed.

Lemma num_qubits_of_spec (s : Q) (n : Z) :
  num_qubits_of s = Ok n →
  0 < dspin_of s ∧ 0 ≤ n ∧ dspin_of s ≤ 2 ^ n ∧
  ∀ m, 0 ≤ m → dspin_of s ≤ 2 ^ m → n ≤ m.
Proof.
  unfold num_qubits_of, ceil_log2.
  destruct (Z.eqb_spec (dspin_of s) 0); [done|].
  destruct (Z.ltb_spec (dspin_of s) 0); [done|].
  intros [= <-].
  assert (0 < dspin_of s) as Hpos by lia.
  split; [done|]. split; [apply Z.log2_up_nonneg|]. split.
  - apply Z.log2_log2_up_spec. done.
  - intros m Hm Hle. by apply Z.log2_up_le_pow2.
Qed.

Lemma num_qubits_of_pos (s : Q) :
  0 < dspin_of s → num_qubits_of s = Ok (Z.log2_up (dspin_of s)).
Proof.
  intros Hpos. unfold num_qubits_of, ceil_log2.
  destruct (Z.eqb_spec (dspin_of s) 0); [lia|].
  destruct (Z.ltb_spec (dspin_of s) 0); [lia|]. done.
Qed.

(** C7.  When the matrix has more than [2^n] rows, [_embed_matrix] raises
    the [ValueError] that stands for the specification's
    [InvalidDimension] and returns nothing; when [n] is the qubit count
    that [_logarithmic_encoding] computes for the spin and the matrix is
    square with [dspin] rows, [_embed_matrix] returns a matrix, so the
    error is not raised. *)
Theorem embed_matrix_invalid_dimension (self : LogarithmicMapper C)
    (M : Matrix C) (n : Z) :
  0 ≤ n →
  (2 ^ n < shape0 M →
     ∃ e, embed_matrix self M n = Raise e ∧ class_of e = ValueError ∧
          error_kind_of e = Some InvalidDimension) ∧
  (∀ (s : Q) (d : nat),
     num_qubits_of s = Ok n → Z.of_nat d = dspin_of s → has_shape d d M →
     ∃ F, embed_matrix self M n = Ok F).
Proof.
  intros Hn. split.
  - intros Hbig. exists (MatrixDoesNotFit n). split; [|done].
    unfold embed_matrix. rewrite lshift_1 by done. simpl.
    destruct (Z.eqb_spec (2 ^ n - shape0 M) 0); [lia|].
    destruct (Z.ltb_spec 0 (2 ^ n - shape0 M)); [lia|]. done.
  - intros s d Hs Hd HM.
    apply num_qubits_of_spec in Hs as (_ & _ & Hle & _).
    destruct (embed_matrix_shape self M n d HM Hn) as (F & HF & _); [lia|].
    by exists F.
Qed.

End EmbedMatrix.

(** ** [_map_single] *)

Section MapSingle.
Context {C : Type} `{ScalarRing C}.

Add Ring scalar_ring_map : scalar_ring.

Implicit Types (cm : axis → Matrix C) (identity : Matrix C).
Implicit Types (mat : gmap Z (Matrix C)) (t : list factor).

(** *** The inner loop *)

Lemma accumulate_step_lookup cm mat (a : axis) (idx i : Z) :
  accumulate_step cm mat (a, idx) !! i =
    if decide (idx = i)
    then Some (match mat !! i with
               | Some m => dot m (cm a)
               | None => cm a
               end)
    else mat !! i.
Proof.
  unfold accumulate_step. case_decide as Hi.
  - subst. by rewrite lookup_insert_eq.
  - by rewrite lookup_insert_ne.
Qed.

Lemma foldl_accumulate_lookup cm t mat (i : Z) :
  foldl (accumulate_step cm) mat t !! i =
    match mat !! i with
    | Some m => Some (foldl (λ m b, dot m (cm b)) m (factors_at i t))
    | None => site_product cm (factors_at i t)
    end.
Proof.
  revert mat. induction t as [|[a idx] t IH]; intros mat.
  - simpl. by destruct (mat !! i).
  - cbn [foldl]. rewrite IH, accumulate_step_lookup. unfold factors_at.
    destruct (decide (idx = i)) as [->|Hne].
    + rewrite filter_cons_True by done. simpl. by destruct (mat !! i).
    + by rewrite filter_cons_False by done.
Qed.

(** After the inner loop, [mat] holds at each site the ordered product of
    the encoded operators of the factors at this site, and nothing at a
    site without factor. *)
Lemma accumulate_lookup cm t (i : Z) :
  accumulate cm t !! i = site_product cm (factors_at i t).
Proof.
  unfold accumulate. by rewrite foldl_accumulate_lookup, lookup_empty.
Qed.

Lemma accumulate_ext cm t t' :
  (∀ i, factors_at i t' = factors_at i t) → accumulate cm t' = accumulate cm t.
Proof.
  intros Heq. apply map_eq. intros i. by rewrite !accumulate_lookup, Heq.
Qed.

Lemma operatorlist_lookup identity mat (rl i : Z) :
  0 ≤ i < rl →
  operatorlist identity mat rl !! Z.to_nat i = Some (default identity (mat !! i)).
Proof.
  intros Hi. unfold operatorlist. rewrite list_lookup_fmap.
  rewrite (lookup_seqZ_lt 0 rl (Z.to_nat i)) by lia. simpl.
  by rewrite Z.add_0_l, Z2Nat.id by lia.
Qed.

Lemma operatorlist_length identity mat (rl : Z) :
  length (operatorlist identity mat rl) = Z.to_nat rl.
Proof. unfold operatorlist. by rewrite length_fmap, length_seqZ. Qed.

Lemma operatorlist_ext identity mat mat' (rl : Z) :
  (∀ i, 0 ≤ i < rl → mat !! i = mat' !! i) →
  operatorlist identity mat rl = operatorlist identity mat' rl.
Proof.
  intros Heq. unfold operatorlist. apply list_fmap_ext.
  intros k i Hk. apply lookup_seqZ in Hk as [-> Hlt].
  rewrite Heq by lia. done.
Qed.

(** When [mat] holds an operator at site [i] only, the per-site operator
    list is the list of identities with this operator at position [i]. *)
Lemma operatorlist_one_site identity mat (rl i : Z) (P : Matrix C) :
  0 ≤ i < rl →
  mat !! i = Some P →
  (∀ j, j ≠ i → mat !! j = None) →
  operatorlist identity mat rl =
    <[Z.to_nat i := P]> (replicate (Z.to_nat rl) identity).
Proof.
  intros Hi HP Hnone. apply list_eq. intros k.
  destruct (decide (k < Z.to_nat rl)%nat) as [Hk|Hk].
  - replace k with (Z.to_nat (Z.of_nat k)) at 1 by lia.
    rewrite operatorlist_lookup by lia.
    destruct (decide (k = Z.to_nat i)) as [->|Hne].
    + rewrite Z2Nat.id, HP by lia.
      by rewrite list_lookup_insert_eq by (rewrite length_replicate; lia).
    + rewrite Hnone by lia.
      rewrite list_lookup_insert_ne by done.
      by rewrite lookup_replicate_2.
  - rewrite !(proj2 (lookup_ge_None _ _)); [done | |].
    + rewrite length_insert, length_replicate. lia.
    + rewrite operatorlist_length. lia.
Qed.

(** *** Reductions *)

Lemma reduce_snoc {A : Type} (f : A → A → A) (l : list A) (x : A) :
  reduce f (l ++ [x]) =
    Ok (match reduce f l with Ok r => f r x | Raise _ => x end).
Proof.
  destruct l as [|y l]; [done|]. simpl. by rewrite foldl_app.
Qed.

Lemma reduce_tensor_reverse (ops : list (Matrix C)) :
  reduce tensor (reverse ops) =
    match site_tensor ops with
    | Some big => Ok big
    | None => Raise ReduceOfEmptySequence
    end.
Proof.
  induction ops as [|o rest IH]; [done|].
  rewrite reverse_cons, reduce_snoc, IH. simpl.
  by destruct (site_tensor rest).
Qed.

Lemma site_tensor_is_Some (ops : list (Matrix C)) :
  ops ≠ [] → is_Some (site_tensor ops).
Proof.
  destruct ops as [|o rest]; [done|]. intros _. simpl.
  destruct (site_tensor rest); by eexists.
Qed.

Lemma map_term_site_tensor cm identity (rl : Z) t (c : C) :
  map_term cm identity rl (t, c) =
    match site_tensor (operatorlist identity (accumulate cm t) rl) with
    | Some big => Ok (rmul c big)
    | None => Raise ReduceOfEmptySequence
    end.
Proof.
  unfold map_term. rewrite reduce_tensor_reverse.
  by destruct (site_tensor _).
Qed.

Lemma map_term_Ok cm identity (rl : Z) t (c : C) :
  0 < rl → ∃ big,
    site_tensor (operatorlist identity (accumulate cm t) rl) = Some big ∧
    map_term cm identity rl (t, c) = Ok (rmul c big).
Proof.
  intros Hrl.
  destruct (site_tensor_is_Some (operatorlist identity (accumulate cm t) rl))
    as [big Hbig].
  { intros Hnil. apply (f_equal length) in Hnil.
    rewrite operatorlist_length in Hnil. simpl in Hnil. lia. }
  exists big. split; [done|]. by rewrite map_term_site_tensor, Hbig.
Qed.

Lemma mapM_result_app {A B : Type} (f : A → result B) (l1 l2 : list A) :
  mapM f (l1 ++ l2) = a ← mapM f l1; b ← mapM f l2; mret (a ++ b).
Proof.
  induction l1 as [|x l1 IH]; simpl.
  - by destruct (mapM f l2).
  - destruct (f x) as [y|e]; simpl; [|done].
    rewrite IH. destruct (mapM f l1) as [a|e]; simpl; [|done].
    by destruct (mapM f l2).
Qed.

Lemma mapM_result_length {A B : Type} (f : A → result B) (l : list A) k :
  mapM f l = Ok k → length k = length l.
Proof.
  revert k. induction l as [|x l IH]; intros k; simpl.
  - by intros [= <-].
  - destruct (f x) as [y|e]; simpl; [|done].
    destruct (mapM f l) as [a|e]; simpl; [|done].
    intros [= <-]. simpl. by rewrite (IH a).
Qed.

Lemma mapM_result_ext {A B : Type} (f g : A → result B) (l : list A) :
  (∀ x, x ∈ l → f x = g x) → mapM f l = mapM g l.
Proof.
  induction l as [|x l IH]; intros Hfg; [done|]. simpl.
  rewrite (Hfg x) by apply list_elem_of_here.
  rewrite IH; [done|]. intros y Hy. apply Hfg. by apply list_elem_of_further.
Qed.

Lemma mapM_result_fmap {A A' B : Type} (f : A' → result B) (g : A → A')
    (l : list A) :
  mapM f (g <$> l) = mapM (λ x, f (g x)) l.
Proof.
  induction l as [|x l IH]; [done|].
  cbn [fmap list_fmap mapM]. by rewrite IH.
Qed.

Lemma mapM_result_Ok {A B : Type} (f : A → result B) (l : list A) :
  (∀ x, x ∈ l → ∃ y, f x = Ok y) → ∃ k, mapM f l = Ok k.
Proof.
  induction l as [|x l IH]; intros Hf; [by eexists|]. simpl.
  destruct (Hf x) as [y ->]; [apply list_elem_of_here|].
  destruct IH as [k ->].
  { intros z Hz. apply Hf. by apply list_elem_of_further. }
  by eexists.
Qed.

(** *** Sites outside the register *)

Lemma factors_at_in_range (rl i : Z) t :
  0 ≤ i < rl →
  factors_at i (filter (λ f : factor, 0 ≤ f.2 < rl) t) = factors_at i t.
Proof.
  intros Hi. unfold factors_at. f_equal.
  apply list_filter_filter_l. intros f ->. done.
Qed.

Lemma map_term_in_range cm identity (rl : Z) t (c : C) :
  map_term cm identity rl (filter (λ f : factor, 0 ≤ f.2 < rl) t, c) =
  map_term cm identity rl (t, c).
Proof.
  rewrite !map_term_site_tensor.
  rewrite (operatorlist_ext identity _ (accumulate cm t)); [done|].
  intros i Hi. by rewrite !accumulate_lookup, factors_at_in_range.
Qed.

(** C3, as the code has it.  A factor whose site index lies outside
    [[0, register_length)] raises no error: the mapping of a list of terms
    is the mapping of the same terms without these factors, and over a
    register with at least one site the mapping of a non-empty list of
    terms returns an operator whatever the site indices are. *)
Theorem out_of_range_factors_ignored cm identity (rl : Z)
    (ts : list (term C)) :
  map_terms cm identity rl ts =
    map_terms cm identity rl
      ((λ tc : term C, (filter (λ f : factor, 0 ≤ f.2 < rl) tc.1, tc.2)) <$> ts) ∧
  (0 < rl → ts ≠ [] → ∃ v, map_terms cm identity rl ts = Ok v).
Proof.
  split.
  - unfold map_terms. rewrite mapM_result_fmap. f_equal.
    apply mapM_result_ext. intros [t c] _.
    symmetry. apply map_term_in_range.
  - intros Hrl Hne. unfold map_terms.
    destruct (mapM_result_Ok (map_term cm identity rl) ts) as [k Hk].
    { intros [t c] _. destruct (map_term_Ok cm identity rl t c Hrl)
        as (big & _ & ->). by eexists. }
    rewrite Hk. simpl. apply mapM_result_length in Hk.
    destruct k as [|x k]; [by destruct ts|]. by eexists.
Qed.

(** *** The sum over the terms *)

Lemma zip_with_assoc {A : Type} (f : A → A → A) :
  (∀ x y z, f (f x y) z = f x (f y z)) →
  ∀ a b c, zip_with f (zip_with f a b) c = zip_with f a (zip_with f b c).
Proof.
  intros Hf a. induction a as [|x a IH]; intros [|y b] [|z c]; simpl; try done.
  by rewrite Hf, IH.
Qed.

Lemma add_assoc (a b c : Matrix C) : add (add a b) c = add a (add b c).
Proof.
  unfold add. apply zip_with_assoc. intros x y z.
  apply zip_with_assoc. intros u v w. ring.
Qed.

Lemma foldl_add_assoc (x y : Matrix C) (ys : list (Matrix C)) :
  foldl add (add x y) ys = add x (foldl add y ys).
Proof.
  revert y. induction ys as [|z ys IH]; intros y; [done|]. simpl.
  by rewrite add_assoc, IH.
Qed.

Lemma reduce_add_app (a b : list (Matrix C)) :
  a ≠ [] → b ≠ [] →
  reduce add (a ++ b) = x ← reduce add a; y ← reduce add b; mret (add x y).
Proof.
  destruct a as [|x a]; [done|]. destruct b as [|y b]; [done|].
  intros _ _. simpl. rewrite foldl_app. simpl.
  by rewrite foldl_add_assoc.
Qed.

(** C9, as the code has it.  For two non-empty lists of terms, mapping
    their concatenation gives the sum of the operators obtained by
    mapping each list, and raises when mapping one of them raises. *)
Theorem map_terms_app cm identity (rl : Z) (ts1 ts2 : list (term C)) :
  ts1 ≠ [] → ts2 ≠ [] →
  map_terms cm identity rl (ts1 ++ ts2) =
    x ← map_terms cm identity rl ts1;
    y ← map_terms cm identity rl ts2;
    mret (add x y).
Proof.
  intros Hne1 Hne2. unfold map_terms. rewrite mapM_result_app.
  destruct (mapM _ ts1) as [a|e] eqn:Ha; simpl; [|done].
  assert (a ≠ []) as Hna.
  { apply mapM_result_length in Ha. destruct a; [by destruct ts1|done]. }
  destruct (mapM _ ts2) as [b|e] eqn:Hb; simpl.
  - assert (b ≠ []) as Hnb.
    { apply mapM_result_length in Hb. destruct b; [by destruct ts2|done]. }
    by apply reduce_add_app.
  - by destruct a.
Qed.

(** *** The tensor product over the sites *)

Lemma operatorlist_two identity mat :
  operatorlist identity mat 2 =
    [default identity (mat !! 0); default identity (mat !! 1)].
Proof. done. Qed.

Lemma map_terms_single cm identity (rl : Z) (tc : term C) :
  map_terms cm identity rl [tc] = map_term cm identity rl tc.
Proof.
  unfold map_terms. simpl. by destruct (map_term cm identity rl tc).
Qed.

Lemma logarithmic_encoding_half `{SpinOpMethods C} (self : LogarithmicMapper C) :
  (∀ b, has_shape 2 2 (SpinOp_matrix b (1 # 2)%Q)) →
  logarithmic_encoding self (1 # 2)%Q =
    Ok (SpinOp_matrix X (1 # 2)%Q, SpinOp_matrix Y (1 # 2)%Q,
        SpinOp_matrix Z_ (1 # 2)%Q, np_eye 2).
Proof.
  intros Hlen. unfold logarithmic_encoding.
  change (dspin_of (1 # 2)%Q) with 2. change (ceil_log2 2) with (Ok (A:=Z) 1).
  simpl.
  rewrite !embed_matrix_same_dim; try done;
    unfold shape0; by rewrite (proj1 (Hlen _)).
Qed.

(** C8.  Over a register with at least one site, the per-site operator
    list of a term holds at each site the accumulated operator of the
    site, or the encoded identity when the term does not touch the site,
    and the operator of the term is its coefficient times the tensor
    product of this list taken from the last site to the first, the last
    site leftmost and site 0 rightmost.  For a register of two sites of
    spin 1/2 (with 2-by-2 spin matrices) whose ordered operator is a
    single term touching only site 1, the mapping returns the coefficient
    times the tensor product of the encoded axis operator by the encoded
    identity. *)
Theorem map_term_tensor_order `{SpinOpMethods C} :
  (∀ cm identity (rl : Z) t (c : C), 0 < rl →
     (∀ i, 0 ≤ i < rl →
        operatorlist identity (accumulate cm t) rl !! Z.to_nat i =
          Some (default identity (site_product cm (factors_at i t)))) ∧
     ∃ big,
       site_tensor (operatorlist identity (accumulate cm t) rl) = Some big ∧
       map_term cm identity rl (t, c) = Ok (rmul c big)) ∧
  (∀ (self : LogarithmicMapper C) (op : SpinOp C) (a : axis) (c : C),
     spin op = (1 # 2)%Q →
     (∀ b, has_shape 2 2 (SpinOp_matrix b (1 # 2)%Q)) →
     index_order (terms op) = [([(a, 1)], c)] →
     map_single self op (Some 2) =
       Ok (rmul c (tensor (SpinOp_matrix a (1 # 2)%Q) (np_eye 2)))).
Proof.
  split.
  - intros cm identity rl t c Hrl. split.
    + intros i Hi. by rewrite operatorlist_lookup, accumulate_lookup.
    + by apply map_term_Ok.
  - intros self op a c Hspin Hlen Hterms. unfold map_single.
    rewrite Hspin, logarithmic_encoding_half by done. simpl.
    rewrite Hterms, map_terms_single, map_term_site_tensor.
    rewrite operatorlist_two, !accumulate_lookup. unfold factors_at.
    rewrite filter_cons_False, filter_cons_True by done. simpl.
    by destruct a.
Qed.

(** *** The order of composition at one site *)

(** The terms that a reordering keeping the order per site yields for
    the operator of the single term [[(X, i), (Z, i)]] have the factor
    [X] and then the factor [Z] at site [i], and no factor elsewhere. *)
Lemma ordered_factors_X_Z `{SpinOpMethods C} (i : Z) (c : C) t' (c' : C) :
  per_site_stable index_order →
  (t', c') ∈ index_order [([(X, i); (Z_, i)], c)] →
  factors_at i t' = [X; Z_] ∧ ∀ j, j ≠ i → factors_at j t' = [].
Proof.
  intros Hstable Hin.
  destruct (Hstable _ _ _ Hin) as (t & c0 & Ht & Hfac).
  apply list_elem_of_singleton in Ht as [= -> ->].
  split.
  - rewrite Hfac. unfold factors_at. by rewrite !filter_cons_True by done.
  - intros j Hj. rewrite Hfac. unfold factors_at.
    by rewrite !filter_cons_False by (simpl; congruence).
Qed.

(** C2.  Let [_map_single] be called on an operator whose single term is
    [[(X, i), (Z, i)]], with the encoded operators [spinx], [spiny],
    [spinz] and [identity] of its spin, and let the reordering done by
    [index_order] keep the order of the factors per site.  Then for
    every term of the ordered operator, the inner loop, run with the
    [char_map] of these operators, leaves at site [i] the matrix product
    of [spinx] by [spinz], in this order; wherever the two products
    differ it is not the product of [spinz] by [spinx]; and the per-site
    operator list is the list of identities with this product at
    position [i].  When the ordered operator has a single term, the
    mapping returns its coefficient times the tensor product of this
    list; over a register of one site that is the coefficient times the
    product of [spinx] by [spinz]. *)
Theorem accumulate_composition_order `{SpinOpMethods C}
    (self : LogarithmicMapper C) (op : SpinOp C)
    (spinx spiny spinz identity : Matrix C) (i : Z) (c : C) :
  per_site_stable index_order →
  logarithmic_encoding self (spin op) = Ok (spinx, spiny, spinz, identity) →
  terms op = [([(X, i); (Z_, i)], c)] →
  (∀ t' (c' : C), (t', c') ∈ index_order (terms op) →
     accumulate (char_map spinx spiny spinz) t' !! i
       = Some (dot spinx spinz) ∧
     (dot spinx spinz ≠ dot spinz spinx →
        accumulate (char_map spinx spiny spinz) t' !! i
          ≠ Some (dot spinz spinx)) ∧
     (∀ rl : Z, 0 ≤ i < rl →
        operatorlist identity (accumulate (char_map spinx spiny spinz) t') rl
          = <[Z.to_nat i := dot spinx spinz]>
              (replicate (Z.to_nat rl) identity))) ∧
  (∀ t' (c' : C) (rl' : option Z),
     index_order (terms op) = [(t', c')] →
     0 ≤ i < default (register_length op) rl' →
     ∃ big,
       site_tensor (<[Z.to_nat i := dot spinx spinz]>
                      (replicate (Z.to_nat (default (register_length op) rl'))
                         identity)) = Some big ∧
       map_single self op rl' = Ok (rmul c' big)) ∧
  (∀ t' (c' : C),
     index_order (terms op) = [(t', c')] → i = 0 →
     map_single self op (Some 1) = Ok (rmul c' (dot spinx spinz))).
Proof.
  intros Hstable Henc Hterms.
  assert (∀ t' (c' : C), (t', c') ∈ index_order (terms op) →
            accumulate (char_map spinx spiny spinz) t' !! i
              = Some (dot spinx spinz) ∧
            ∀ j, j ≠ i →
              accumulate (char_map spinx spiny spinz) t' !! j = None)
    as Hacc.
  { intros t' c' Hin. rewrite Hterms in Hin.
    destruct (ordered_factors_X_Z i c t' c' Hstable Hin) as [Hi Hj].
    split.
    - by rewrite accumulate_lookup, Hi.
    - intros j Hne. by rewrite accumulate_lookup, Hj. }
  assert (∀ t' (c' : C) (rl : Z),
            index_order (terms op) = [(t', c')] → 0 ≤ i < rl →
            map_single self op (Some rl) =
              match site_tensor (<[Z.to_nat i := dot spinx spinz]>
                                   (replicate (Z.to_nat rl) identity)) with
              | Some big => Ok (rmul c' big)
              | None => Raise ReduceOfEmptySequence
              end) as Hmap.
  { intros t' c' rl Hord Hi. unfold map_single. rewrite Henc. simpl.
    rewrite Hord, map_terms_single, map_term_site_tensor.
    destruct (Hacc t' c') as [Hat Hnone];
      [rewrite Hord; apply list_elem_of_here|].
    by rewrite (operatorlist_one_site identity _ rl i (dot spinx spinz)). }
  split; [|split].
  - intros t' c' Hin. destruct (Hacc t' c' Hin) as [Hat Hnone].
    split; [done|]. split.
    + intros Hne. rewrite Hat. congruence.
    + intros rl Hi. by apply operatorlist_one_site.
  - intros t' c' rl' Hord Hi.
    set (rl := default (register_length op) rl') in *.
    destruct (site_tensor_is_Some
                (<[Z.to_nat i := dot spinx spinz]>
                   (replicate (Z.to_nat rl) identity))) as [big Hbig].
    { intros Hnil. apply (f_equal length) in Hnil.
      rewrite length_insert, length_replicate in Hnil. simpl in Hnil. lia. }
    exists big. split; [done|].
    assert (map_single self op rl' = map_single self op (Some rl)) as ->
      by (subst rl; by destruct rl').
    by rewrite (Hmap t' c' rl Hord Hi), Hbig.
  - intros t' c' Hord ->.
    by rewrite (Hmap t' c' 1 Hord ltac:(lia)).
Qed.
End MapSingle.

(** ** The Kronecker product and identities *)

Section TensorFacts.
Context {C : Type} `{ScalarRing C}.
Local Open Scope nat_scope.

Add Ring scalar_ring_tensor : scalar_ring.

(** Two matrices of one shape with the same entries are equal. *)
Lemma matrix_ext r c (a b : Matrix C) :
  has_shape r c a → has_shape r c b →
  (∀ i j, i < r → j < c → entry a i j = entry b i j) → a = b.
Proof.
  intros [Ha Fa] [Hb Fb] Hentry. apply list_eq. intros i.
  destruct (a !! i) as [x|] eqn:Hx.
  - pose proof (lookup_lt_Some _ _ _ Hx) as Hi.
    destruct (b !! i) as [y|] eqn:Hy.
    + f_equal. apply list_eq. intros j.
      pose proof (Forall_lookup_1 _ _ _ _ Fa Hx) as Hlx.
      pose proof (Forall_lookup_1 _ _ _ _ Fb Hy) as Hly.
      simpl in Hlx, Hly.
      destruct (decide (j < c)) as [Hj|Hj].
      * specialize (Hentry i j ltac:(lia) Hj). unfold entry in Hentry.
        by rewrite Hx, Hy in Hentry.
      * rewrite !(proj2 (lookup_ge_None _ _)) by lia. done.
    + apply lookup_ge_None in Hy. lia.
  - apply lookup_ge_None in Hx. symmetry. apply lookup_ge_None. lia.
Qed.

Lemma length_bind_uniform {A B : Type} (f : A → list B) (l : list A) k :
  Forall (λ x, length (f x) = k) l → length (l ≫= f) = length l * k.
Proof.
  induction 1 as [|x l Hx _ IH]; [done|].
  rewrite bind_cons, length_app, IH, Hx. simpl. lia.
Qed.

Lemma lookup_bind_uniform {A B : Type} (f : A → list B) (l : list A) k i :
  0 < k → Forall (λ x, length (f x) = k) l →
  (l ≫= f) !! i = l !! (i / k) ≫= λ x, f x !! (i mod k).
Proof.
  intros Hk Hl. revert i. induction Hl as [|x l Hx _ IH]; intros i.
  - done.
  - rewrite bind_cons. destruct (decide (i < k)) as [Hi|Hi].
    + rewrite lookup_app_l by lia.
      by rewrite Nat.div_small, Nat.mod_small by done.
    + rewrite lookup_app_r by lia. rewrite IH, Hx.
      assert (i / k = S ((i - k) / k)) as ->.
      { replace i with (1 * k + (i - k)) at 1 by lia.
        by rewrite Nat.div_add_l by lia. }
      assert (i mod k = (i - k) mod k) as ->.
      { replace i with ((i - k) + 1 * k) at 1 by lia.
        apply Nat.Div0.mod_add. }
      done.
Qed.

Lemma has_shape_tensor ra ca rb cb (a b : Matrix C) :
  has_shape ra ca a → has_shape rb cb b →
  has_shape (ra * rb) (ca * cb) (tensor a b).
Proof.
  intros [Ha Fa] [Hb Fb]. unfold tensor. split.
  - rewrite (length_bind_uniform _ _ rb), Ha; [done|].
    apply Forall_forall. intros row _. by rewrite length_fmap.
  - apply Forall_bind. eapply Forall_impl; [exact Fa|].
    intros rowa Hrowa. simpl. apply Forall_fmap.
    eapply Forall_impl; [exact Fb|]. intros rowb Hrowb. simpl.
    rewrite (length_bind_uniform _ _ cb), Hrowa; [done|].
    apply Forall_forall. intros x _. by rewrite length_fmap.
Qed.

Lemma entry_tensor rb cb (a b : Matrix C) i j :
  0 < rb → 0 < cb → has_shape rb cb b →
  entry (tensor a b) i j =
    x ← entry a (i / rb) (j / cb);
    y ← entry b (i mod rb) (j mod cb);
    Some (x * y)%S.
Proof.
  intros Hrb Hcb [Hb Fb]. unfold entry, tensor.
  rewrite (lookup_bind_uniform _ _ rb) by
    (done || (apply Forall_forall; intros row _; by rewrite length_fmap)).
  destruct (a !! (i / rb)) as [rowa|]; simpl; [|done].
  rewrite list_lookup_fmap.
  destruct (b !! (i mod rb)) as [rowb|] eqn:Hrowb; simpl.
  - pose proof (Forall_lookup_1 _ _ _ _ Fb Hrowb) as Hlen. simpl in Hlen.
    rewrite (lookup_bind_uniform _ _ cb) by
      (done || (apply Forall_forall; intros x _; by rewrite length_fmap)).
    destruct (rowa !! (j / cb)) as [x|]; simpl; [|done].
    rewrite list_lookup_fmap. by destruct (rowb !! (j mod cb)).
  - by destruct (rowa !! (j / cb)).
Qed.

Lemma tensor_np_eye (a b : nat) :
  0 < b →
  tensor (C:=C) (np_eye (Z.of_nat a)) (np_eye (Z.of_nat b)) =
  np_eye (Z.of_nat (a * b)).
Proof.
  intros Hb.
  apply (matrix_ext (a * b) (a * b)).
  - apply has_shape_tensor; apply has_shape_np_eye.
  - apply has_shape_np_eye.
  - intros i j Hi Hj.
    rewrite (entry_tensor b b) by (done || apply has_shape_np_eye).
    assert (i / b < a) by (apply Nat.Div0.div_lt_upper_bound; lia).
    assert (j / b < a) by (apply Nat.Div0.div_lt_upper_bound; lia).
    assert (i mod b < b) by (apply Nat.mod_upper_bound; lia).
    assert (j mod b < b) by (apply Nat.mod_upper_bound; lia).
    rewrite !entry_np_eye by done. simpl. f_equal.
    pose proof (Nat.div_mod_eq i b). pose proof (Nat.div_mod_eq j b).
    repeat case_decide; try ring; congruence.
Qed.

Lemma site_tensor_replicate_eye (n k : nat) :
  0 < n →
  site_tensor (C:=C) (replicate (S k) (np_eye (Z.of_nat n))) =
    Some (np_eye (Z.of_nat (n ^ S k))).
Proof.
  intros Hn. induction k as [|k IH].
  - simpl. by rewrite Nat.mul_1_r.
  - rewrite replicate_S. cbn [site_tensor]. rewrite IH.
    rewrite tensor_np_eye by done.
    by rewrite (Nat.pow_succ_r' n (S k)), Nat.mul_comm.
Qed.
End TensorFacts.

(** ** Terms without factor *)

Section ScalarTerms.
Context {C : Type} `{ScalarRing C}.

Add Ring scalar_ring_terms : scalar_ring.

Lemma block_diag_scaled_identity (k : nat) (p : C) (i j : nat) :
  block_diag k (scaled_identity p) (scaled_identity p) i j =
    scaled_identity p i j.
Proof.
  unfold block_diag, scaled_identity.
  destruct (decide (i < k ∧ j < k)%nat) as [?|Hlow]; [done|].
  destruct (decide (k ≤ i ∧ k ≤ j)%nat) as [?|Hhigh]; f_equal.
  - destruct (decide (i = j)), (decide ((i - k)%nat = (j - k)%nat));
      (done || lia).
  - destruct (decide (i = j)); [lia|done].
Qed.

(** With padding 1, the identity of size [d] is embedded as the identity
    of size [2^n]. *)
Lemma embed_np_eye (self : LogarithmicMapper C) (d : nat) (n : Z) :
  _padding self = 1%S → 0 ≤ n → Z.of_nat d ≤ 2 ^ n →
  embed_matrix self (np_eye (Z.of_nat d)) n = Ok (np_eye (2 ^ n)).
Proof.
  intros Hp Hn Hle.
  set (diff := (Z.to_nat (2 ^ n) - d)%nat).
  assert (2 ^ n = Z.of_nat (d + diff)) as Hfull by (subst diff; lia).
  pose proof (has_shape_np_eye (C:=C) d) as Hd.
  pose proof Hd as [Hlen _].
  destruct (decide (diff = 0%nat)) as [Hz|Hnz].
  - rewrite embed_matrix_same_dim; [|done|unfold shape0; lia].
    do 2 f_equal. lia.
  - rewrite Hfull.
    assert (∀ i j, (i < d + diff)%nat → (j < d + diff)%nat →
              entry (C:=C) (np_eye (Z.of_nat (d + diff))) i j =
                Some (if decide (i = j) then 1%S else 0%S)) as Heye
      by (intros; by apply entry_np_eye).
    pose proof (has_shape_np_mul_scalar _ _ _ (_padding self)
                  (has_shape_np_eye (C:=C) diff)) as He.
    destruct (_embed_upper self) eqn:Hup.
    + rewrite (embed_matrix_upper self _ n d diff); [|done|lia|lia|lia|done].
      f_equal. apply (matrix_ext (d + diff) (d + diff)).
      * apply has_shape_np_block; try done; apply has_shape_np_zeros.
      * apply has_shape_np_eye.
      * intros i j Hi Hj.
        rewrite block_upper_entries, Heye, Hp by done.
        etransitivity; [|apply (block_diag_scaled_identity d 1%S i j)].
        unfold block_diag.
        destruct (decide (i < d ∧ j < d)%nat) as [[? ?]|?]; [|done].
        by apply entry_np_eye.
    + rewrite (embed_matrix_lower self _ n d diff); [|done|lia|lia|lia|done].
      f_equal. apply (matrix_ext (d + diff) (d + diff)).
      * rewrite (Nat.add_comm d diff).
        apply has_shape_np_block; try done; apply has_shape_np_zeros.
      * apply has_shape_np_eye.
      * intros i j Hi Hj.
        rewrite block_lower_entries, Heye, Hp by done.
        etransitivity; [|apply (block_diag_scaled_identity diff 1%S i j)].
        unfold block_diag.
        destruct (decide (i < diff ∧ j < diff)%nat) as [?|?]; [done|].
        destruct (decide (diff ≤ i ∧ diff ≤ j)%nat) as [[? ?]|?]; [|done].
        apply entry_np_eye; lia.
Qed.

(** The four encoded operators of a spin whose matrices are square of size
    [dspin] are square of size [2^num_qubits]. *)
Lemma logarithmic_encoding_shape `{SpinOpMethods C}
    (self : LogarithmicMapper C) (s : Q) (d : nat) (n : Z) ex ey ez ei :
  (∀ a, has_shape d d (SpinOp_matrix a s)) → Z.of_nat d = dspin_of s →
  num_qubits_of s = Ok n →
  logarithmic_encoding self s = Ok (ex, ey, ez, ei) →
  Forall (has_shape (Z.to_nat (2 ^ n)) (Z.to_nat (2 ^ n))) [ex; ey; ez; ei].
Proof.
  intros Hsq Hd Hn.
  pose proof (num_qubits_of_spec s n Hn) as (_ & Hn0 & Hle & _).
  unfold logarithmic_encoding. unfold num_qubits_of in Hn. rewrite Hn. simpl.
  destruct (embed_matrix_shape self _ n d (Hsq X) Hn0) as (fx & -> & Hx); [lia|].
  destruct (embed_matrix_shape self _ n d (Hsq Y) Hn0) as (fy & -> & Hy); [lia|].
  destruct (embed_matrix_shape self _ n d (Hsq Z_) Hn0) as (fz & -> & Hz); [lia|].
  rewrite <- Hd.
  destruct (embed_matrix_shape self _ n d (has_shape_np_eye d) Hn0)
    as (fi & -> & Hi); [lia|].
  simpl. intros [= <- <- <- <-].
  repeat (apply List.Forall_cons; [done|]). apply List.Forall_nil.
Qed.

Lemma operatorlist_empty (identity : Matrix C) (rl : Z) :
  operatorlist identity ∅ rl = replicate (Z.to_nat rl) identity.
Proof.
  unfold operatorlist. rewrite <- (length_seqZ 0 rl).
  apply const_fmap. intros i x _. by rewrite lookup_empty.
Qed.

(** C10.  Over a register with at least one site, a term without factor
    and with coefficient [c] is mapped to [c] times the tensor product of
    the encoded identity over all the sites.  With padding 1 the encoded
    identity of a spin [s] whose matrices are square of size [2s+1] is the
    identity on [n] qubits, and this operator is [c] times the identity on
    [register_length * n] qubits. *)
Theorem scalar_term_identity `{SpinOpMethods C} :
  (∀ (cm : axis → Matrix C) (identity : Matrix C) (rl : Z) (c : C), 0 < rl →
     ∃ big,
       site_tensor (replicate (Z.to_nat rl) identity) = Some big ∧
       map_term cm identity rl ([], c) = Ok (rmul c big)) ∧
  (∀ (self : LogarithmicMapper C) (s : Q) (d : Z),
     _padding self = 1%S →
     (0 <= s)%Q → (2 * s + 1 == inject_Z d)%Q →
     (∀ a, has_shape (Z.to_nat d) (Z.to_nat d) (SpinOp_matrix a s)) →
     ∃ n ex ey ez,
       num_qubits_of s = Ok n ∧
       logarithmic_encoding self s = Ok (ex, ey, ez, np_eye (2 ^ n)) ∧
       ∀ (rl : Z) (c : C), 0 < rl →
         map_term (char_map ex ey ez) (np_eye (2 ^ n)) rl ([], c) =
           Ok (rmul c (np_eye (2 ^ (rl * n))))).
Proof.
  split.
  - intros cm identity rl c Hrl.
    destruct (map_term_Ok cm identity rl [] c Hrl) as (big & Hbig & Hmap).
    exists big. split; [|done].
    by rewrite <- operatorlist_empty.
  - intros self s d Hp Hs Hd Hlen.
    assert (1 ≤ d) as Hd1.
    { destruct s as [a b]. unfold Qeq, Qle in *. simpl in *. nia. }
    pose proof (dspin_of_integer s d Hd) as Hds.
    pose proof (num_qubits_of_pos s) as Hn. rewrite Hds in Hn.
    specialize (Hn ltac:(lia)).
    pose proof (num_qubits_of_spec s _ Hn) as (_ & Hn0 & Hle & _).
    rewrite Hds in Hle.
    set (n := Z.log2_up d) in *.
    assert (∀ a, ∃ e, embed_matrix self (SpinOp_matrix a s) n = Ok e) as Hemb.
    { intros a.
      destruct (embed_matrix_shape self _ n _ (Hlen a) Hn0) as (e & He & _);
        [lia|]. by exists e. }
    destruct (Hemb X) as [ex Hex]. destruct (Hemb Y) as [ey Hey].
    destruct (Hemb Z_) as [ez Hez].
    exists n, ex, ey, ez. split; [done|]. split.
    + unfold logarithmic_encoding. unfold num_qubits_of in Hn.
      rewrite Hn. simpl. rewrite Hex, Hey, Hez. simpl. rewrite Hds.
      replace d with (Z.of_nat (Z.to_nat d)) at 1 by lia.
      rewrite embed_np_eye by (done || lia). done.
    + intros rl c Hrl. rewrite map_term_site_tensor.
      unfold accumulate. simpl foldl. rewrite operatorlist_empty.
      assert (0 < 2 ^ n) as Hpow by (apply Z.pow_pos_nonneg; lia).
      replace (2 ^ n) with (Z.of_nat (Z.to_nat (2 ^ n))) at 1 by lia.
      replace (Z.to_nat rl) with (S (Z.to_nat (rl - 1))) by lia.
      rewrite site_tensor_replicate_eye by lia.
      do 3 f_equal.
      rewrite Nat2Z.inj_pow, Z2Nat.id by lia.
      replace (Z.of_nat (S (Z.to_nat (rl - 1)))) with rl by lia.
      rewrite (Z.mul_comm rl n). symmetry. apply Z.pow_mul_r; lia.
Qed.
End ScalarTerms.

(** ** The instance of the examples *)

Module PauliFacts.
Import Pauli.

#[global] Instance gauss_ring : ScalarRing gauss.
Proof.
  constructor; intros; repeat match goal with x : gauss |- _ => destruct x end;
    cbn; f_equal; ring.
Qed.

Lemma factors_at_cons (i : Z) (f : factor) (l : list factor) :
  factors_at i (f :: l) =
    (if decide (f.2 = i) then [f.1] else []) ++ factors_at i l.
Proof.
  unfold factors_at. case_decide.
  - by rewrite filter_cons_True.
  - by rewrite filter_cons_False.
Qed.

Lemma factors_at_insert (i : Z) (f : factor) (l : list factor) :
  factors_at i (insert_factor f l) = factors_at i (f :: l).
Proof.
  induction l as [|g l IH]; [done|]. simpl.
  case_decide as Hle; [done|].
  rewrite (factors_at_cons i g), IH, !factors_at_cons.
  repeat case_decide; (done || lia).
Qed.

Lemma factors_at_sort (i : Z) (t : list factor) :
  factors_at i (sort_factors t) = factors_at i t.
Proof.
  induction t as [|f t IH]; [done|]. simpl.
  by rewrite factors_at_insert, !factors_at_cons, IH.
Qed.

Lemma index_order_stable : per_site_stable (C:=gauss) index_order.
Proof.
  intros ts t' c' Hin. simpl in Hin.
  apply list_elem_of_fmap in Hin as ([t c] & [= -> ->] & Hin).
  exists t, c. split; [done|]. intros i. apply factors_at_sort.
Qed.
End PauliFacts.

(** ** An operator without term *)

Section EmptyOperator.
Context {C : Type} `{Scalar C} `{SpinOpMethods C}.

(** C4, as the code has it.  When the encoding of the spin succeeds and
    the ordered operator has no term, [_map_single] raises the
    [TypeError] of [functools.reduce] on an empty sequence: it returns no
    operator, and the error is none of the error kinds of the
    specification. *)
Theorem empty_operator_raises_TypeError (self : LogarithmicMapper C)
    (op : SpinOp C) (rl : option Z) enc :
  logarithmic_encoding self (spin op) = Ok enc →
  index_order (terms op) = [] →
  map_single self op rl = Raise ReduceOfEmptySequence ∧
  (∀ v, map_single self op rl ≠ Ok v) ∧
  class_of ReduceOfEmptySequence = TypeError ∧
  error_kind_of ReduceOfEmptySequence = None.
Proof.
  intros Henc Hterms.
  assert (map_single self op rl = Raise ReduceOfEmptySequence) as Hr.
  { unfold map_single. rewrite Henc. destruct enc as [[[ex ey] ez] ei].
    simpl. by rewrite Hterms. }
  split; [done|]. split; [|done]. intros v. by rewrite Hr.
Qed.
End EmptyOperator.

(** ** Instances of the theorems and inputs on which the specification fails *)

Module Examples.
Import Pauli PauliFacts.

(** The encoding of spin 1/2 by this instance. *)
Lemma encoding_half (p : Z) (upper : bool) :
  logarithmic_encoding (mapper p upper) (1 # 2)%Q =
    Ok (sigma X, sigma Y, sigma Z_, sigma_0).
Proof. by destruct upper. Qed.

Lemma site_tensor_three (a b c : Matrix gauss) :
  site_tensor [a; b; c] = Some (tensor (tensor c b) a).
Proof. done. Qed.

Example embed_upper_m3 :
  embed_matrix (mapper 7 true) m3 2 =
    Ok [[(1, 0); (2, 0); (3, 0); (0, 0)];
        [(4, 0); (5, 0); (6, 0); (0, 0)];
        [(7, 0); (8, 0); (9, 0); (0, 0)];
        [(0, 0); (0, 0); (0, 0); (7, 0)]].
Proof. reflexivity. Qed.

Example embed_lower_m3 :
  embed_matrix (mapper 7 false) m3 2 =
    Ok [[(7, 0); (0, 0); (0, 0); (0, 0)];
        [(0, 0); (1, 0); (2, 0); (3, 0)];
        [(0, 0); (4, 0); (5, 0); (6, 0)];
        [(0, 0); (7, 0); (8, 0); (9, 0)]].
Proof. reflexivity. Qed.

Example embed_too_large_m3 :
  embed_matrix (mapper 7 true) m3 1 = Raise (MatrixDoesNotFit 1).
Proof. reflexivity. Qed.

Example num_qubits_small :
  num_qubits_of (1 # 2)%Q = Ok 1 ∧ num_qubits_of 1%Q = Ok 2 ∧
  num_qubits_of (3 # 2)%Q = Ok 2 ∧ num_qubits_of 2%Q = Ok 3.
Proof. repeat split. Qed.

Example sigma_x_z_anticommute :
  dot (sigma X) (sigma Z_) = [[(0, 0); (-1, 0)]; [(1, 0); (0, 0)]] ∧
  dot (sigma Z_) (sigma X) = [[(0, 0); (1, 0)]; [(-1, 0); (0, 0)]].
Proof. split; reflexivity. Qed.

Example map_single_site_1_of_2 :
  map_single (mapper 1 true)
    {| spin := (1 # 2)%Q; register_length := 2;
       terms := [([(X, 1)], (3, 0))] |} None =
    Ok [[(0, 0); (0, 0); (3, 0); (0, 0)];
        [(0, 0); (0, 0); (0, 0); (3, 0)];
        [(3, 0); (0, 0); (0, 0); (0, 0)];
        [(0, 0); (3, 0); (0, 0); (0, 0)]].
Proof. vm_compute. reflexivity. Qed.

Lemma embed_matrix_block_diagonal_witness :
  ∃ F : Matrix gauss,
    embed_matrix (mapper 7 true) m3 2 = Ok F ∧
    has_shape 4 4 F ∧
    ∀ i j : nat, (i < 4)%nat → (j < 4)%nat →
      entry F i j = block_diag 3 (entry m3) (scaled_identity (7, 0)) i j.
Proof.
  apply (embed_matrix_block_diagonal (mapper 7 true) m3 2 3).
  - split; [reflexivity | repeat constructor].
  - lia.
  - reflexivity.
Defined.

Lemma accumulate_composition_order_witness :
  accumulate (char_map (sigma X) (sigma Y) (sigma Z_)) [(X, 0); (Z_, 0)] !! 0
    = Some (dot (sigma X) (sigma Z_)) ∧
  accumulate (char_map (sigma X) (sigma Y) (sigma Z_)) [(X, 0); (Z_, 0)] !! 0
    ≠ Some (dot (sigma Z_) (sigma X)) ∧
  operatorlist sigma_0
    (accumulate (char_map (sigma X) (sigma Y) (sigma Z_)) [(X, 0); (Z_, 0)]) 2
    = [dot (sigma X) (sigma Z_); sigma_0] ∧
  (∃ big,
     site_tensor [dot (sigma X) (sigma Z_); sigma_0] = Some big ∧
     map_single (mapper 1 true)
       {| spin := (1 # 2)%Q; register_length := 2;
          terms := [([(X, 0); (Z_, 0)], (3, 0))] |} None
       = Ok (rmul (3, 0) big)) ∧
  map_single (mapper 1 true)
    {| spin := (1 # 2)%Q; register_length := 2;
       terms := [([(X, 0); (Z_, 0)], (3, 0))] |} (Some 1)
    = Ok (rmul (3, 0) (dot (sigma X) (sigma Z_))).
Proof.
  destruct (accumulate_composition_order (mapper 1 true)
              {| spin := (1 # 2)%Q; register_length := 2;
                 terms := [([(X, 0); (Z_, 0)], (3, 0))] |}
              (sigma X) (sigma Y) (sigma Z_) sigma_0 0 (3, 0)
              index_order_stable (encoding_half 1 true) eq_refl)
    as (Hacc & Hmap & Hone).
  destruct (Hacc [(X, 0); (Z_, 0)] (3, 0)) as (Hat & Hne & Hops).
  { apply list_elem_of_here. }
  split; [exact Hat|]. split.
  { apply Hne. vm_compute. discriminate. }
  split.
  { exact (Hops 2 ltac:(lia)). }
  split.
  - exact (Hmap [(X, 0); (Z_, 0)] (3, 0) None eq_refl ltac:(simpl; lia)).
  - exact (Hone [(X, 0); (Z_, 0)] (3, 0) eq_refl eq_refl).
Defined.

(** C3 fails here: over a register of one site, the factor [(X, 5)] is
    outside the register and the mapping returns the identity. *)
Lemma out_of_range_site_accepted :
  ¬ (0 ≤ 5 < 1) ∧
  map_terms sigma sigma_0 1 [([(X, 5)], (1, 0))] = Ok sigma_0 ∧
  ¬ ∃ e, map_terms sigma sigma_0 1 [([(X, 5)], (1, 0))] = Raise e ∧
         error_kind_of e = Some IndexOutOfRange.
Proof.
  split; [lia|].
  assert (map_terms sigma sigma_0 1 [([(X, 5)], (1, 0))] = Ok sigma_0) as Hr
    by (vm_compute; reflexivity).
  split; [exact Hr|]. intros (e & He & _). rewrite Hr in He. discriminate.
Qed.

Lemma out_of_range_factors_ignored_witness :
  map_terms sigma sigma_0 1 [([(X, 5); (Z_, 0)], (1, 0))] =
    map_terms sigma sigma_0 1 [([(Z_, 0)], (1, 0))] ∧
  ∃ v, map_terms sigma sigma_0 1 [([(X, 5); (Z_, 0)], (1, 0))] = Ok v.
Proof.
  destruct (out_of_range_factors_ignored sigma sigma_0 1
              [([(X, 5); (Z_, 0)], (1, 0))]) as [Heq Hok].
  split; [exact Heq|]. apply Hok; [lia|discriminate].
Defined.

(** C4 fails here: without term the mapping raises [TypeError], which is
    not [EmptyOperator], and returns no operator. *)
Lemma empty_term_list_unrelated_error :
  map_terms sigma sigma_0 1 [] = Raise ReduceOfEmptySequence ∧
  ¬ ((∃ e, map_terms sigma sigma_0 1 [] = Raise e ∧
           error_kind_of e = Some EmptyOperator) ∨
     (∃ zero, map_terms sigma sigma_0 1 [] = Ok zero)).
Proof.
  split; [reflexivity|].
  intros [(e & He & Hk)|(zero & Hz)].
  - injection He as <-. discriminate Hk.
  - discriminate Hz.
Qed.

Lemma empty_operator_raises_TypeError_witness :
  map_single (mapper 1 true)
    {| spin := (1 # 2)%Q; register_length := 1; terms := [] |} None
    = Raise ReduceOfEmptySequence ∧
  (∀ v, map_single (mapper 1 true)
          {| spin := (1 # 2)%Q; register_length := 1; terms := [] |} None
        ≠ Ok v) ∧
  class_of ReduceOfEmptySequence = TypeError ∧
  error_kind_of ReduceOfEmptySequence = None.
Proof.
  apply (empty_operator_raises_TypeError (mapper 1 true)
           {| spin := (1 # 2)%Q; register_length := 1; terms := [] |} None
           (sigma X, sigma Y, sigma Z_, sigma_0)).
  - reflexivity.
  - reflexivity.
Defined.

Lemma embed_matrix_noop_witness :
  embed_matrix (mapper 7 false) (sigma X) 1 = Ok (sigma X).
Proof.
  apply (embed_matrix_noop (7, 0) false (sigma X) 1).
  - lia.
  - reflexivity.
Defined.

Lemma embed_matrix_invalid_dimension_witness :
  (∃ e, embed_matrix (mapper 7 true) m3 1 = Raise e ∧ class_of e = ValueError ∧
        error_kind_of e = Some InvalidDimension) ∧
  (∃ F, embed_matrix (mapper 7 true) m3 2 = Ok F).
Proof.
  split.
  - apply (embed_matrix_invalid_dimension (mapper 7 true) m3 1); [lia|].
    reflexivity.
  - apply (proj2 (embed_matrix_invalid_dimension (mapper 7 true) m3 2
                    ltac:(lia)) 1%Q 3%nat).
    + reflexivity.
    + reflexivity.
    + split; [reflexivity | repeat constructor].
Defined.

Lemma map_term_tensor_order_witness :
  (∃ big,
     site_tensor (operatorlist sigma_0 (accumulate sigma [(X, 1)]) 2) = Some big ∧
     map_term sigma sigma_0 2 ([(X, 1)], (3, 0)) = Ok (rmul (3, 0) big)) ∧
  map_single (mapper 1 true)
    {| spin := (1 # 2)%Q; register_length := 2;
       terms := [([(X, 1)], (3, 0))] |} (Some 2)
    = Ok (rmul (3, 0) (tensor (sigma X) (np_eye 2))).
Proof.
  destruct (map_term_tensor_order (C:=gauss)) as [Hgen Hhalf].
  split.
  - apply (Hgen sigma sigma_0 2 [(X, 1)] (3, 0)). lia.
  - apply (Hhalf (mapper 1 true)
             {| spin := (1 # 2)%Q; register_length := 2;
                terms := [([(X, 1)], (3, 0))] |} X (3, 0)).
    + reflexivity.
    + intros b. destruct b; (split; [reflexivity | repeat constructor]).
    + reflexivity.
Defined.

(** C9 fails here: the concatenation of no term with one term is mapped
    to an operator, and the mapping of no term returns none. *)
Lemma concat_with_empty_not_sum :
  (∃ v, map_terms sigma sigma_0 1 ([] ++ [([], (1, 0))]) = Ok v) ∧
  ¬ ∃ a b, map_terms sigma sigma_0 1 [] = Ok a ∧
           map_terms sigma sigma_0 1 [([], (1, 0))] = Ok b.
Proof.
  split.
  - exists sigma_0. vm_compute. reflexivity.
  - intros (a & b & Ha & _). discriminate Ha.
Qed.

Lemma map_terms_app_witness :
  map_terms sigma sigma_0 1 ([([(X, 0)], (2, 0))] ++ [([(Z_, 0)], (0, 1))]) =
    x ← map_terms sigma sigma_0 1 [([(X, 0)], (2, 0))];
    y ← map_terms sigma sigma_0 1 [([(Z_, 0)], (0, 1))];
    mret (add x y).
Proof.
  apply (map_terms_app sigma sigma_0 1
           [([(X, 0)], (2, 0))] [([(Z_, 0)], (0, 1))]); discriminate.
Defined.

Lemma scalar_term_identity_witness :
  (∃ big,
     site_tensor (replicate (Z.to_nat 2) sigma_0) = Some big ∧
     map_term sigma sigma_0 2 ([], (5, 0)) = Ok (rmul (5, 0) big)) ∧
  (∃ n ex ey ez,
     num_qubits_of (1 # 2)%Q = Ok n ∧
     logarithmic_encoding (mapper 1 false) (1 # 2)%Q
       = Ok (ex, ey, ez, np_eye (2 ^ n)) ∧
     ∀ (rl : Z) (c : gauss), 0 < rl →
       map_term (char_map ex ey ez) (np_eye (2 ^ n)) rl ([], c) =
         Ok (rmul c (np_eye (2 ^ (rl * n))))).
Proof.
  destruct (scalar_term_identity (C:=gauss)) as [Hgen Hone].
  split.
  - apply (Hgen sigma sigma_0 2 (5, 0)). lia.
  - apply (Hone (mapper 1 false) (1 # 2)%Q 2).
    + reflexivity.
    + discriminate.
    + reflexivity.
    + intros a. destruct a; (split; [reflexivity | repeat constructor]).
Defined.
End Examples.

(** * Further properties *)

(** ** [_embed_matrix]: outcomes, round trip, repeated embedding *)

Section EmbedMatrixMore.
Context {C : Type} `{ScalarRing C}.

(** X1.  On a square matrix, of [d] rows of [d] entries, [_embed_matrix]
    returns a matrix exactly when the qubit count is not negative and [d]
    is at most [2^num_qubits], and the matrix it returns is square of
    side [2^num_qubits]; in every other case the exception it raises is a
    [ValueError]. *)
Theorem embed_matrix_outcome (self : LogarithmicMapper C)
    (M : Matrix C) (n : Z) (d : nat) :
  has_shape d d M →
  match embed_matrix self M n with
  | Ok F =>
      0 ≤ n ∧ Z.of_nat d ≤ 2 ^ n ∧
      has_shape (Z.to_nat (2 ^ n)) (Z.to_nat (2 ^ n)) F
  | Raise e => class_of e = ValueError ∧ (n < 0 ∨ 2 ^ n < Z.of_nat d)
  end.
Proof.
  intros HM.
  assert (shape0 M = Z.of_nat d) as Hrows
    by (unfold shape0; by rewrite (proj1 HM)).
  destruct (Z.ltb_spec n 0) as [Hneg|Hn].
  { unfold embed_matrix, lshift.
    rewrite (proj2 (Z.ltb_lt n 0)) by done. simpl.
    split; [done|]. by left. }
  destruct (Z_le_gt_dec (Z.of_nat d) (2 ^ n)) as [Hle|Hgt].
  - destruct (embed_matrix_shape self M n d HM Hn Hle) as (F & -> & HF).
    done.
  - unfold embed_matrix, lshift.
    rewrite (proj2 (Z.ltb_ge n 0)) by done. simpl.
    rewrite Z.shiftl_1_l, Hrows.
    destruct (Z.eqb_spec (2 ^ n - Z.of_nat d) 0); [lia|].
    destruct (Z.ltb_spec 0 (2 ^ n - Z.of_nat d)); [lia|].
    split; [done|]. right. lia.
Qed.

Lemma embed_matrix_Ok_inv (self : LogarithmicMapper C)
    (M : Matrix C) (n : Z) (F : Matrix C) :
  embed_matrix self M n = Ok F → 0 ≤ n ∧ shape0 M ≤ 2 ^ n.
Proof.
  intros HF. unfold embed_matrix, lshift in HF.
  destruct (Z.ltb_spec n 0) as [Hneg|Hn]; simpl in HF; [done|].
  rewrite Z.shiftl_1_l in HF.
  destruct (Z.eqb_spec (2 ^ n - shape0 M) 0); [lia|].
  destruct (Z.ltb_spec 0 (2 ^ n - shape0 M)); [lia|done].
Qed.

Lemma fmap_take_all (d : nat) (a : Matrix C) :
  Forall (λ row, length row = d) a → take d <$> a = a.
Proof.
  induction 1 as [|x a Hx _ IH]; [done|].
  cbn [fmap list_fmap]. rewrite take_ge by lia. f_equal. exact IH.
Qed.

Lemma fmap_drop_0 (a : Matrix C) : drop 0 <$> a = a.
Proof.
  induction a as [|x a IH]; [done|].
  cbn [fmap list_fmap]. rewrite drop_0. f_equal. exact IH.
Qed.

Lemma fmap_take_hstack (d : nat) (a b : Matrix C) :
  Forall (λ row, length row = d) a → (length a ≤ length b)%nat →
  take d <$> zip_with app a b = a.
Proof.
  intros Fa. revert b. induction Fa as [|x a Hx _ IH]; intros [|y b] Hlen;
    simpl in *; try done; try lia.
  rewrite take_app_length' by done. f_equal. apply IH. lia.
Qed.

Lemma fmap_drop_hstack (k : nat) (a b : Matrix C) :
  Forall (λ row, length row = k) a → (length b ≤ length a)%nat →
  drop k <$> zip_with app a b = b.
Proof.
  intros Fa. revert b. induction Fa as [|x a Hx _ IH]; intros [|y b] Hlen;
    simpl in *; try done; try lia.
  rewrite drop_app_length' by done. f_equal. apply IH. lia.
Qed.

(** X2.  The embedded matrix keeps the embedded one: with [embed_upper]
    the first [d] entries of its first [d] rows, and without it the last
    [d] entries of its last [d] rows, are the [d]-by-[d] matrix that was
    embedded. *)
Theorem embed_matrix_recovers_block (self : LogarithmicMapper C)
    (M : Matrix C) (n : Z) (d : nat) (F : Matrix C) :
  has_shape d d M → embed_matrix self M n = Ok F →
  (if _embed_upper self
   then take d <$> take d F
   else drop (length F - d) <$> drop (length F - d) F) = M.
Proof.
  intros [Hlen FM] HF.
  destruct (embed_matrix_Ok_inv _ _ _ _ HF) as [Hn Hle]. unfold shape0 in Hle.
  set (diff := (Z.to_nat (2 ^ n) - d)%nat).
  assert (2 ^ n = Z.of_nat (d + diff)) as Hfull by (subst diff; lia).
  destruct (decide (diff = 0%nat)) as [Hz|Hnz].
  - rewrite embed_matrix_same_dim in HF by (done || (unfold shape0; lia)).
    injection HF as <-. rewrite Hlen, Nat.sub_diag.
    destruct (_embed_upper self).
    + rewrite take_ge by lia. by apply fmap_take_all.
    + rewrite drop_0. apply fmap_drop_0.
  - pose proof (has_shape_np_zeros (C:=C) d diff) as [Hz1 Fz1].
    pose proof (has_shape_np_zeros (C:=C) diff d) as [Hz2 Fz2].
    pose proof (has_shape_np_mul_scalar _ _ _ (_padding self)
                  (has_shape_np_eye (C:=C) diff)) as [He Fe].
    destruct (_embed_upper self) eqn:Hup.
    + rewrite (embed_matrix_upper self M n d diff) in HF
        by (done || lia).
      injection HF as <-. unfold np_block.
      rewrite take_app_length' by (rewrite length_zip_with; lia).
      apply fmap_take_hstack; [done|lia].
    + rewrite (embed_matrix_lower self M n d diff) in HF
        by (done || lia).
      injection HF as <-. unfold np_block.
      rewrite length_app, !length_zip_with.
      replace (length _ `min` length _ + length _ `min` length M - d)%nat
        with diff by lia.
      rewrite drop_app_length' by (rewrite length_zip_with; lia).
      apply fmap_drop_hstack; [done|lia].
Qed.

(** X3.  Embedding again what [_embed_matrix] returned, for the same
    number of qubits, changes nothing, whatever the padding and the
    [embed_upper] flag of the second embedding are. *)
Theorem embed_matrix_twice (self self' : LogarithmicMapper C)
    (M : Matrix C) (n : Z) (d : nat) (F : Matrix C) :
  has_shape d d M → embed_matrix self M n = Ok F →
  embed_matrix self' F n = Ok F.
Proof.
  intros HM HF.
  destruct (embed_matrix_Ok_inv _ _ _ _ HF) as [Hn Hle].
  destruct HM as [Hlen FM]. unfold shape0 in Hle. rewrite Hlen in Hle.
  destruct (embed_matrix_shape self M n d (conj Hlen FM) Hn Hle)
    as (F' & HF' & [Hrows _]).
  rewrite HF in HF'. injection HF' as <-.
  apply embed_matrix_same_dim; [done|].
  unfold shape0. rewrite Hrows. apply Z2Nat.id. apply Z.pow_nonneg. lia.
Qed.

End EmbedMatrixMore.

(** ** [_logarithmic_encoding]: dimensions that need no padding *)

Section EncodingMore.
Context {C : Type} `{Scalar C} `{SpinOpMethods C}.

(** X5.  When the dimension [2s+1] of the spin is a power of two and the
    spin matrices have that many rows, the encoding returns the spin
    matrices and the identity unchanged, whatever the padding and the
    [embed_upper] flag of the mapper are. *)
Theorem logarithmic_encoding_power_of_two (self : LogarithmicMapper C)
    (s : Q) (k : Z) :
  0 ≤ k → dspin_of s = 2 ^ k →
  (∀ a, shape0 (SpinOp_matrix a s) = 2 ^ k) →
  logarithmic_encoding self s =
    Ok (SpinOp_matrix X s, SpinOp_matrix Y s, SpinOp_matrix Z_ s, np_eye (2 ^ k)).
Proof.
  intros Hk Hd Hrows. unfold logarithmic_encoding.
  assert (0 < 2 ^ k) as Hpos by (apply Z.pow_pos_nonneg; lia).
  assert (ceil_log2 (dspin_of s) = Ok k) as ->.
  { unfold ceil_log2. rewrite Hd.
    destruct (Z.eqb_spec (2 ^ k) 0); [lia|].
    destruct (Z.ltb_spec (2 ^ k) 0); [lia|].
    by rewrite Z.log2_up_pow2. }
  assert (shape0 (C:=C) (np_eye (dspin_of s)) = 2 ^ k) as Heye.
  { unfold shape0, np_eye. rewrite length_fmap, length_seq. lia. }
  cbn [mbind result_bind].
  rewrite !embed_matrix_same_dim by (done || apply Hrows).
  cbn [mbind result_bind mret result_ret]. by rewrite Hd.
Qed.
End EncodingMore.

(** ** [_map_single]: outcomes, the sites of a term, reorderings *)

Section MapSingleMore.
Context {C : Type} `{ScalarRing C}.

Add Ring scalar_ring_more : scalar_ring.

Implicit Types (cm : axis → Matrix C) (identity : Matrix C).
Implicit Types (t : list factor).

Lemma map_term_no_site cm identity (rl : Z) (tc : term C) :
  rl ≤ 0 → map_term cm identity rl tc = Raise ReduceOfEmptySequence.
Proof.
  intros Hrl. destruct tc as [t c]. rewrite map_term_site_tensor.
  assert (operatorlist identity (accumulate cm t) rl = []) as ->; [|done].
  apply length_zero_iff_nil. rewrite operatorlist_length. lia.
Qed.

Lemma map_terms_Ok cm identity (rl : Z) (ts : list (term C)) :
  0 < rl → ts ≠ [] → ∃ v, map_terms cm identity rl ts = Ok v.
Proof.
  intros Hrl Hne. unfold map_terms.
  destruct (mapM_result_Ok (map_term cm identity rl) ts) as [k Hk].
  { intros [t c] _. destruct (map_term_Ok cm identity rl t c Hrl)
      as (big & _ & ->). by eexists. }
  rewrite Hk. simpl. apply mapM_result_length in Hk.
  destruct k as [|x k]; [by destruct ts|]. by eexists.
Qed.

Lemma map_terms_Ok_inv cm identity (rl : Z) (ts : list (term C)) v :
  map_terms cm identity rl ts = Ok v → 0 < rl ∧ ts ≠ [].
Proof.
  intros Hv. destruct ts as [|tc ts]; [done|]. split; [|done].
  destruct (decide (0 < rl)) as [Hrl|Hrl]; [done|].
  unfold map_terms in Hv. cbn [mapM] in Hv.
  by rewrite map_term_no_site in Hv by lia.
Qed.

(** X7.  The mapping of a list of terms returns an operator exactly when
    the register has at least one site and the list has at least one
    term; otherwise it raises the [TypeError] of a reduction of an empty
    sequence, and nothing else is ever raised. *)
Theorem map_terms_outcome cm identity (rl : Z) (ts : list (term C)) :
  match map_terms cm identity rl ts with
  | Ok _ => 0 < rl ∧ ts ≠ []
  | Raise e => e = ReduceOfEmptySequence ∧ (rl ≤ 0 ∨ ts = [])
  end.
Proof.
  destruct ts as [|tc ts].
  - simpl. split; [done|]. by right.
  - destruct (decide (0 < rl)) as [Hrl|Hrl].
    + destruct (map_terms_Ok cm identity rl (tc :: ts) Hrl) as [v ->]; done.
    + unfold map_terms. cbn [mapM].
      rewrite map_term_no_site by lia. simpl. split; [done|]. left. lia.
Qed.

Lemma accumulate_dom_aux cm t :
  dom (accumulate cm t) = list_to_set t.*2.
Proof.
  apply set_eq. intros i.
  rewrite elem_of_dom, accumulate_lookup, elem_of_list_to_set.
  unfold factors_at. rewrite list_elem_of_fmap. split.
  - intros [m Hm].
    destruct (filter (λ f : factor, f.2 = i) t) as [|f l] eqn:Hf; [done|].
    assert (f ∈ filter (λ f : factor, f.2 = i) t) as Hin
      by (rewrite Hf; apply list_elem_of_here).
    apply list_elem_of_filter in Hin as [Hfi Hin]. by exists f.
  - intros (f & -> & Hin).
    assert (f ∈ filter (λ g : factor, g.2 = f.2) t) as Hin'
      by (by apply list_elem_of_filter).
    destruct (filter (λ g : factor, g.2 = f.2) t) as [|g l].
    + by apply not_elem_of_nil in Hin'.
    + by eexists.
Qed.

(** X8.  After the inner loop the dictionary [mat] has an entry exactly
    at the sites that occur in the factors of the term: reading a site
    without factor finds nothing, and a site with a factor has an
    operator. *)
Theorem accumulate_dom cm t (i : Z) :
  dom (accumulate cm t) = list_to_set t.*2 ∧
  (accumulate cm t !! i = None ↔ ∀ f, f ∈ t → f.2 ≠ i).
Proof.
  split; [apply accumulate_dom_aux|].
  rewrite <- not_elem_of_dom, accumulate_dom_aux, elem_of_list_to_set,
    list_elem_of_fmap.
  split.
  - intros Hno f Hf Hi. apply Hno. by exists f.
  - intros Hall (f & Hi & Hf). by apply (Hall f).
Qed.

Lemma mapM_result_Forall2 {A B : Type} (f : A → result B) (l l' : list A) :
  Forall2 (λ x x', f x = f x') l l' → mapM f l = mapM f l'.
Proof. induction 1 as [|x x' l l' Hx _ IH]; [done|]. simpl. by rewrite Hx, IH. Qed.

(** X9.  The operator of a term depends on the order of its factors only
    through the order of the factors at each site: two lists of terms
    that agree, term by term, on the coefficient and on the factors at
    every site are mapped alike.  Factors at different sites can be
    exchanged. *)
Theorem map_terms_per_site_order cm identity (rl : Z)
    (ts ts' : list (term C)) :
  Forall2 (λ tc tc' : term C,
             tc.2 = tc'.2 ∧ ∀ i, factors_at i tc.1 = factors_at i tc'.1)
          ts ts' →
  map_terms cm identity rl ts = map_terms cm identity rl ts'.
Proof.
  intros Hall. unfold map_terms. f_equal.
  apply mapM_result_Forall2.
  eapply Forall2_impl; [exact Hall|].
  intros [t c] [t' c'] [Hc Hf]. simpl in Hc, Hf. subst c'.
  rewrite !map_term_site_tensor. by rewrite (accumulate_ext cm t' t).
Qed.

Lemma rmul_rmul (a b : C) (m : Matrix C) :
  rmul (a * b)%S m = rmul a (rmul b m).
Proof.
  unfold rmul. rewrite <- list_fmap_compose. apply list_fmap_ext.
  intros _ row _. simpl. rewrite <- list_fmap_compose. apply list_fmap_ext.
  intros _ x _. simpl. ring.
Qed.

(** The coefficient of a term only scales its operator. *)
Lemma map_term_coefficient cm identity (rl : Z) t (a b : C) :
  map_term cm identity rl (t, (a * b)%S) =
    v ← map_term cm identity rl (t, b); mret (rmul a v).
Proof.
  rewrite !map_term_site_tensor.
  destruct (site_tensor _) as [big|]; [|done].
  simpl. by rewrite rmul_rmul.
Qed.
End MapSingleMore.

(** ** [_map_single]: the order of the terms, the size of the result *)

Section MapSingleSum.
Context {C : Type} `{ScalarRing C}.

Add Ring scalar_ring_sum : scalar_ring.

Implicit Types (cm : axis → Matrix C) (identity : Matrix C).

Lemma zip_with_comm {A : Type} (f : A → A → A) :
  (∀ x y, f x y = f y x) → ∀ a b, zip_with f a b = zip_with f b a.
Proof.
  intros Hf a. induction a as [|x a IH]; intros [|y b]; simpl; try done.
  by rewrite Hf, IH.
Qed.

Lemma add_comm (a b : Matrix C) : add a b = add b a.
Proof.
  unfold add. apply zip_with_comm. intros x y.
  apply zip_with_comm. intros u v. ring.
Qed.

Lemma map_terms_cons cm identity (rl : Z) (tc : term C) (ts : list (term C)) :
  map_terms cm identity rl (tc :: ts) =
    a ← map_term cm identity rl tc;
    match ts with
    | [] => mret a
    | _ :: _ => b ← map_terms cm identity rl ts; mret (add a b)
    end.
Proof.
  unfold map_terms. cbn [mapM].
  destruct (map_term cm identity rl tc) as [a|e]; [|done].
  cbn [mbind result_bind].
  destruct (mapM (map_term cm identity rl) ts) as [k|e] eqn:Hk.
  - apply mapM_result_length in Hk.
    destruct ts as [|tc' ts]; destruct k as [|y k]; simpl in Hk; try lia.
    + done.
    + simpl. by rewrite foldl_add_assoc.
  - destruct ts as [|tc' ts]; [done|]. done.
Qed.

(** X11.  The result does not depend on the order of the terms: two
    lists with the same terms in a different order are mapped to the same
    operator, or both raise the same error. *)
Theorem map_terms_Permutation cm identity (rl : Z) (ts ts' : list (term C)) :
  ts ≡ₚ ts' → map_terms cm identity rl ts = map_terms cm identity rl ts'.
Proof.
  induction 1 as [|x l l' Hl IH|x y l|l l' l'' _ IH1 _ IH2].
  - done.
  - rewrite !map_terms_cons, IH.
    destruct l as [|z l], l' as [|z' l']; try done.
    + by apply Permutation_nil_cons in Hl.
    + symmetry in Hl. by apply Permutation_nil_cons in Hl.
  - rewrite (map_terms_cons _ _ _ y), (map_terms_cons _ _ _ x (y :: l)).
    rewrite (map_terms_cons _ _ _ x l), (map_terms_cons _ _ _ y l).
    destruct (decide (0 < rl)) as [Hrl|Hrl].
    + destruct x as [tx cx], y as [ty cy].
      destruct (map_term_Ok cm identity rl tx cx Hrl) as (bx & _ & ->).
      destruct (map_term_Ok cm identity rl ty cy Hrl) as (by_ & _ & ->).
      destruct l as [|z l].
      * simpl. by rewrite add_comm.
      * destruct (map_terms cm identity rl (z :: l)) as [c|e]; [|done].
        simpl. by rewrite <- !add_assoc, (add_comm (rmul cy by_)).
    + by rewrite !map_term_no_site by lia.
  - by rewrite IH1.
Qed.

(** *** Shapes *)

Lemma has_shape_rmul r c (a : C) (m : Matrix C) :
  has_shape r c m → has_shape r c (rmul a m).
Proof.
  intros [Hr Hc]. unfold rmul. split.
  - by rewrite length_fmap.
  - apply Forall_fmap. eapply Forall_impl; [exact Hc|].
    intros row Hrow. simpl. by rewrite length_fmap.
Qed.

Lemma has_shape_add r c (a b : Matrix C) :
  has_shape r c a → has_shape r c b → has_shape r c (add a b).
Proof.
  intros [Ha Fa] [Hb Fb]. unfold add. split.
  - rewrite length_zip_with. lia.
  - apply Forall_lookup. intros i row Hi.
    apply lookup_zip_with_Some in Hi as (x & y & -> & Hx & Hy).
    rewrite length_zip_with.
    rewrite (Forall_lookup_1 _ _ _ _ Fa Hx), (Forall_lookup_1 _ _ _ _ Fb Hy).
    lia.
Qed.

Lemma length_foldr_vadd (k : nat) (base : list C) (rows : Matrix C) :
  length base = k → Forall (λ row, length row = k) rows →
  length (foldr (zip_with cadd) base rows) = k.
Proof.
  intros Hb. induction 1 as [|row rows Hrow _ IH]; [done|].
  simpl. rewrite length_zip_with, Hrow, IH. lia.
Qed.

Lemma has_shape_dot (n : nat) (a b : Matrix C) :
  has_shape n n a → has_shape n n b → has_shape n n (dot a b).
Proof.
  intros [Ha Fa] [Hb Fb]. unfold dot. split; [by rewrite length_fmap|].
  apply Forall_fmap. eapply Forall_impl; [exact Fa|].
  intros v Hv. simpl. unfold vec_mat.
  destruct b as [|row0 b].
  { simpl in Hb. subst n. destruct v; [done|]. simpl in Hv. lia. }
  apply length_foldr_vadd.
  - rewrite length_replicate. simpl. by inversion Fb.
  - apply Forall_lookup. intros i row Hi.
    apply lookup_zip_with_Some in Hi as (x & y & -> & Hx & Hy).
    rewrite length_fmap. exact (Forall_lookup_1 _ _ _ _ Fb Hy).
Qed.

Lemma site_product_shape (n : nat) cm (axes : list axis) (m : Matrix C) :
  (∀ a, has_shape n n (cm a)) →
  site_product cm axes = Some m → has_shape n n m.
Proof.
  intros Hcm. destruct axes as [|a rest]; [done|]. simpl. intros [= <-].
  generalize (Hcm a). generalize (cm a).
  induction rest as [|b rest IH]; intros m Hm; [done|].
  simpl. apply IH. by apply has_shape_dot.
Qed.

Lemma site_tensor_shape (n : nat) (ops : list (Matrix C)) (big : Matrix C) :
  Forall (has_shape n n) ops → site_tensor ops = Some big →
  has_shape (n ^ length ops) (n ^ length ops) big.
Proof.
  intros Hops. revert big. induction Hops as [|o rest Ho _ IH]; intros big; [done|].
  simpl. destruct (site_tensor rest) as [high|] eqn:Hhigh.
  - intros [= <-]. rewrite (Nat.mul_comm n). by apply has_shape_tensor, Ho; apply IH.
  - intros [= <-]. destruct rest as [|o' rest'].
    + simpl. by rewrite Nat.mul_1_r.
    + simpl in Hhigh. by destruct (site_tensor rest').
Qed.

Lemma map_term_shape (n : nat) cm identity (rl : Z) (tc : term C) v :
  (∀ a, has_shape n n (cm a)) → has_shape n n identity →
  map_term cm identity rl tc = Ok v →
  has_shape (n ^ Z.to_nat rl) (n ^ Z.to_nat rl) v.
Proof.
  intros Hcm Hid. destruct tc as [t c]. rewrite map_term_site_tensor.
  destruct (site_tensor _) as [big|] eqn:Hbig; [|done]. intros [= <-].
  apply has_shape_rmul.
  rewrite <- (operatorlist_length identity (accumulate cm t) rl).
  apply site_tensor_shape; [|done].
  unfold operatorlist. apply Forall_fmap, Forall_forall. intros i _. simpl.
  rewrite accumulate_lookup.
  destruct (site_product cm (factors_at i t)) as [m|] eqn:Hm; [|done].
  simpl. by apply (site_product_shape n cm (factors_at i t)).
Qed.

Lemma map_terms_shape (r : nat) cm identity (rl : Z) (ts : list (term C)) v :
  (∀ tc w, map_term cm identity rl tc = Ok w → has_shape r r w) →
  map_terms cm identity rl ts = Ok v → has_shape r r v.
Proof.
  intros Hterm. revert v. induction ts as [|tc ts IH]; intros v; [done|].
  rewrite map_terms_cons.
  destruct (map_term cm identity rl tc) as [a|e] eqn:Ha; [|done].
  cbn [mbind result_bind]. destruct ts as [|tc' ts].
  - intros [= <-]. by apply (Hterm tc).
  - destruct (map_terms cm identity rl (tc' :: ts)) as [b|e]; [|done].
    intros [= <-]. apply has_shape_add; [by apply (Hterm tc)|by apply IH].
Qed.

(** X12.  When [_map_single] returns an operator for a spin whose
    matrices are square of size [2s+1], the operator is a square matrix of
    size [2^(register_length * num_qubits)]: it acts on
    [register_length * num_qubits] qubits. *)
Theorem map_single_shape `{SpinOpMethods C} (self : LogarithmicMapper C)
    (op : SpinOp C) (rl' : option Z) (d : nat) (n : Z) (v : Matrix C) :
  (∀ a, has_shape d d (SpinOp_matrix a (spin op))) →
  Z.of_nat d = dspin_of (spin op) →
  num_qubits_of (spin op) = Ok n →
  map_single self op rl' = Ok v →
  let rl := default (register_length op) rl' in
  has_shape (Z.to_nat (2 ^ (rl * n))) (Z.to_nat (2 ^ (rl * n))) v.
Proof.
  intros Hsq Hd Hn Hv rl. unfold map_single in Hv. fold rl in Hv.
  destruct (logarithmic_encoding self (spin op)) as [[[[ex ey] ez] ei]|e] eqn:Henc;
    [|done].
  cbn [mbind result_bind] in Hv.
  pose proof (logarithmic_encoding_shape self _ d n ex ey ez ei Hsq Hd Hn Henc)
    as Hshape.
  apply Forall_cons in Hshape as [Hx Hshape].
  apply Forall_cons in Hshape as [Hy Hshape].
  apply Forall_cons in Hshape as [Hz Hshape].
  apply Forall_cons in Hshape as [Hi _].
  pose proof (num_qubits_of_spec _ n Hn) as (_ & Hn0 & _).
  destruct (map_terms_Ok_inv _ _ _ _ _ Hv) as [Hrl _].
  assert (Z.to_nat (2 ^ (rl * n)) = (Z.to_nat (2 ^ n) ^ Z.to_nat rl)%nat) as ->.
  { apply Nat2Z.inj. rewrite Nat2Z.inj_pow, !Z2Nat.id by (try apply Z.pow_nonneg; lia).
    rewrite (Z.mul_comm rl n). apply Z.pow_mul_r; lia. }
  eapply map_terms_shape; [|exact Hv].
  intros tc w Hw. eapply map_term_shape; [|exact Hi|exact Hw].
  intros a. by destruct a.
Qed.
End MapSingleSum.

(** ** The embedding and the matrix product *)

Section EmbedProduct.
Context {C : Type} `{ScalarRing C}.
Local Open Scope nat_scope.

Add Ring scalar_ring_product : scalar_ring.

Local Abbreviation vadd := (zip_with cadd).
Local Abbreviation vzero w := (replicate w 0%S).
Local Abbreviation vscale x := (fmap (M:=list) (cmul x)).
Local Abbreviation lincomb w v b :=
  (foldr vadd (vzero w) (zip_with (λ x (row : list C), vscale x row) v b)).

Lemma vec_mat_lincomb w (v : list C) (b : Matrix C) :
  b ≠ [] → Forall (λ row, length row = w) b → vec_mat v b = lincomb w v b.
Proof.
  intros Hne Fb. unfold vec_mat. destruct b as [|row b]; [done|].
  simpl. by inversion Fb; subst.
Qed.

Lemma vadd_zero_l w (r : list C) : length r = w → vadd (vzero w) r = r.
Proof.
  revert w. induction r as [|x r IH]; intros [|w] Hlen; simpl in *; try done.
  f_equal; [ring|]. apply IH. lia.
Qed.

Lemma vadd_zero_r w (r : list C) : length r = w → vadd r (vzero w) = r.
Proof.
  intros Hlen. rewrite zip_with_comm by (intros; ring). by apply vadd_zero_l.
Qed.

Lemma vadd_assoc (a b c : list C) : vadd (vadd a b) c = vadd a (vadd b c).
Proof. apply zip_with_assoc. intros. ring. Qed.

Lemma vadd_app (a1 a2 b1 b2 : list C) :
  length a1 = length b1 →
  vadd (a1 ++ a2) (b1 ++ b2) = vadd a1 b1 ++ vadd a2 b2.
Proof. apply zip_with_app. Qed.

Lemma vscale_zero (r : list C) : vscale 0%S r = vzero (length r).
Proof. apply const_fmap. intros _ x _. ring. Qed.

Lemma vscale_vzero (x : C) w : vscale x (vzero w) = vzero w.
Proof. rewrite fmap_replicate. f_equal. ring. Qed.

Lemma Forall_rows_by w (v : list C) (b : Matrix C) :
  Forall (λ row, length row = w) b →
  Forall (λ row, length row = w)
    (zip_with (λ x (row : list C), vscale x row) v b).
Proof.
  intros Fb. apply Forall_lookup. intros i row Hi.
  apply lookup_zip_with_Some in Hi as (x & y & -> & Hx & Hy).
  rewrite length_fmap. exact (Forall_lookup_1 _ _ _ _ Fb Hy).
Qed.

Lemma length_lincomb w (v : list C) (b : Matrix C) :
  Forall (λ row, length row = w) b → length (lincomb w v b) = w.
Proof.
  intros Fb. apply length_foldr_vadd.
  - apply length_replicate.
  - by apply Forall_rows_by.
Qed.

Lemma lincomb_app w (u v : list C) (b1 b2 : Matrix C) :
  length u = length b1 →
  Forall (λ row, length row = w) b1 → Forall (λ row, length row = w) b2 →
  lincomb w (u ++ v) (b1 ++ b2) = vadd (lincomb w u b1) (lincomb w v b2).
Proof.
  intros Hlen F1 F2. rewrite zip_with_app by done. rewrite foldr_app.
  pose proof (length_lincomb w v b2 F2) as Hl2.
  revert u Hlen. induction F1 as [|r b1 Hr _ IH]; intros [|x u] Hlen;
    simpl in *; try lia.
  - by rewrite vadd_zero_l.
  - rewrite IH by lia. by rewrite vadd_assoc.
Qed.

Lemma lincomb_hstack w1 w2 (u : list C) (b1 b2 : Matrix C) :
  length b1 = length b2 → Forall (λ row, length row = w1) b1 →
  lincomb (w1 + w2) u (zip_with app b1 b2) = lincomb w1 u b1 ++ lincomb w2 u b2.
Proof.
  intros Hlen F1. revert u b2 Hlen.
  induction F1 as [|r1 b1 Hr F1 IH]; intros u [|r2 b2] Hlen; simpl in *; try lia.
  - destruct u; simpl; apply replicate_add.
  - destruct u as [|x u]; simpl; [apply replicate_add|].
    rewrite IH by lia. rewrite fmap_app. apply vadd_app.
    rewrite length_fmap, length_lincomb; done.
Qed.

Lemma lincomb_zero_vec w m (b : Matrix C) :
  Forall (λ row, length row = w) b → lincomb w (vzero m) b = vzero w.
Proof.
  intros Fb. revert m. induction Fb as [|r b Hr _ IH]; intros [|m]; simpl; try done.
  rewrite IH, vscale_zero, Hr. apply vadd_zero_l, length_replicate.
Qed.

Lemma lincomb_zero_mat w m (u : list C) :
  lincomb w u (replicate m (vzero w)) = vzero w.
Proof.
  revert m. induction u as [|x u IH]; intros [|m]; simpl; try done.
  rewrite IH, vscale_vzero. apply vadd_zero_l, length_replicate.
Qed.

(** Rows of a block matrix times a block matrix. *)
Lemma vec_mat_block_top a b (u : list C) (p' q' : Matrix C) :
  length u = a → has_shape a a p' → has_shape b b q' → 0 < a →
  vec_mat (u ++ vzero b)
    (np_block p' (np_zeros (Z.of_nat a) (Z.of_nat b))
              (np_zeros (Z.of_nat b) (Z.of_nat a)) q')
  = vec_mat u p' ++ vzero b.
Proof.
  intros Hu [Hp Fp] [Hq Fq] Ha.
  pose proof (has_shape_np_zeros (C:=C) a b) as Hz1.
  pose proof (has_shape_np_zeros (C:=C) b a) as Hz2.
  pose proof (has_shape_hstack _ _ _ _ _ (conj Hp Fp) Hz1) as [Ht Ft].
  pose proof (has_shape_hstack _ _ _ _ _ Hz2 (conj Hq Fq)) as [Hb Fb].
  unfold np_block.
  rewrite (vec_mat_lincomb (a + b)); cycle 1.
  { intros Hnil. apply (f_equal length) in Hnil.
    rewrite length_app, Ht in Hnil. simpl in Hnil. lia. }
  { by apply Forall_app. }
  rewrite lincomb_app by (done || lia).
  rewrite lincomb_zero_vec by done.
  rewrite vadd_zero_r by (by apply length_lincomb).
  rewrite lincomb_hstack by (done || (destruct Hz1; lia)).
  unfold np_zeros at 1. rewrite !Nat2Z.id, lincomb_zero_mat.
  rewrite (vec_mat_lincomb a); [done| |done].
  intros ->. simpl in Hp. lia.
Qed.

Lemma vec_mat_block_bottom a b (v : list C) (p' q' : Matrix C) :
  length v = b → has_shape a a p' → has_shape b b q' → 0 < b →
  vec_mat (vzero a ++ v)
    (np_block p' (np_zeros (Z.of_nat a) (Z.of_nat b))
              (np_zeros (Z.of_nat b) (Z.of_nat a)) q')
  = vzero a ++ vec_mat v q'.
Proof.
  intros Hv [Hp Fp] [Hq Fq] Hb0.
  pose proof (has_shape_np_zeros (C:=C) a b) as Hz1.
  pose proof (has_shape_np_zeros (C:=C) b a) as Hz2.
  pose proof (has_shape_hstack _ _ _ _ _ (conj Hp Fp) Hz1) as [Ht Ft].
  pose proof (has_shape_hstack _ _ _ _ _ Hz2 (conj Hq Fq)) as [Hb Fb].
  unfold np_block.
  rewrite (vec_mat_lincomb (a + b)); cycle 1.
  { intros Hnil. apply (f_equal length) in Hnil.
    rewrite length_app, Ht, Hb in Hnil. simpl in Hnil. lia. }
  { by apply Forall_app. }
  rewrite lincomb_app by (done || (rewrite length_replicate; lia)).
  rewrite lincomb_zero_vec by done.
  rewrite vadd_zero_l by (by apply length_lincomb).
  destruct Hz2 as [Hz2 Fz2].
  rewrite lincomb_hstack by (done || lia).
  unfold np_zeros at 1. rewrite !Nat2Z.id, lincomb_zero_mat.
  rewrite (vec_mat_lincomb b); [done| |done].
  intros ->. simpl in Hq. lia.
Qed.

(** The product of two block-diagonal matrices with blocks of the same
    sizes is the block-diagonal matrix of the products of the blocks. *)
Lemma dot_np_block a b (p q p' q' : Matrix C) :
  has_shape a a p → has_shape b b q → has_shape a a p' → has_shape b b q' →
  dot (np_block p (np_zeros (Z.of_nat a) (Z.of_nat b))
                (np_zeros (Z.of_nat b) (Z.of_nat a)) q)
      (np_block p' (np_zeros (Z.of_nat a) (Z.of_nat b))
                (np_zeros (Z.of_nat b) (Z.of_nat a)) q')
  = np_block (dot p p') (np_zeros (Z.of_nat a) (Z.of_nat b))
             (np_zeros (Z.of_nat b) (Z.of_nat a)) (dot q q').
Proof.
  intros [Hp Fp] [Hq Fq] Hp' Hq'.
  set (F' := np_block p' _ _ q').
  assert (∀ u, length u = a → 0 < a →
            vec_mat (u ++ vzero b) F' = vec_mat u p' ++ vzero b) as Htop
    by (intros; by apply vec_mat_block_top).
  assert (∀ v, length v = b → 0 < b →
            vec_mat (vzero a ++ v) F' = vzero a ++ vec_mat v q') as Hbot
    by (intros; by apply vec_mat_block_bottom).
  clearbody F'.
  unfold np_block, np_zeros. rewrite !Nat2Z.id.
  unfold dot. rewrite fmap_app. f_equal.
  - rewrite !zip_with_replicate_r_eq by (done || by rewrite length_fmap).
    rewrite <- !list_fmap_compose.
    apply list_fmap_ext. intros i u Hu. simpl. unfold flip.
    pose proof (Forall_lookup_1 _ _ _ _ Fp Hu) as Hlen. simpl in Hlen.
    apply lookup_lt_Some in Hu. apply Htop; lia.
  - rewrite !zip_with_replicate_l by (rewrite ?length_fmap; lia).
    rewrite <- !list_fmap_compose.
    apply list_fmap_ext. intros i v Hv. simpl.
    pose proof (Forall_lookup_1 _ _ _ _ Fq Hv) as Hlen. simpl in Hlen.
    apply lookup_lt_Some in Hv. apply Hbot; lia.
Qed.

Lemma eye_row_split (n i : nat) :
  i < n →
  (λ j, if decide (i = j) then 1%S else 0%S) <$> seq 0 n =
    vzero i ++ (1%S : C) :: vzero (n - S i).
Proof.
  intros Hi. replace n with (i + S (n - S i)) at 1 by lia.
  rewrite seq_app, fmap_app. simpl. rewrite decide_True by done.
  f_equal; [|f_equal].
  - rewrite <- (length_seq i 0) at 2. apply const_fmap.
    intros k x Hk. apply lookup_seq in Hk as [-> Hk].
    rewrite decide_False; [done|lia].
  - rewrite <- (length_seq (n - S i) (S i)) at 2. apply const_fmap.
    intros k x Hk. apply lookup_seq in Hk as [-> Hk].
    rewrite decide_False; [done|lia].
Qed.

Lemma vec_mat_unit w (n i : nat) (x : C) (m : Matrix C) (row : list C) :
  has_shape n w m → m !! i = Some row →
  vec_mat (vzero i ++ x :: vzero (n - S i)) m = vscale x row.
Proof.
  intros [Hn Fm] Hrow.
  pose proof (lookup_lt_Some _ _ _ Hrow) as Hi.
  pose proof (Forall_lookup_1 _ _ _ _ Fm Hrow) as Hlen. simpl in Hlen.
  rewrite (vec_mat_lincomb w); [|by intros ->|done].
  rewrite <- (take_drop_middle m i row Hrow) at 1.
  assert (Forall (λ r, length r = w) (take i m)) as Ft by by apply Forall_take.
  assert (Forall (λ r, length r = w) (drop (S i) m)) as Fd by by apply Forall_drop.
  rewrite lincomb_app; [|rewrite length_replicate, length_take; lia|done|].
  2: { by apply Forall_cons. }
  rewrite lincomb_zero_vec by done.
  rewrite vadd_zero_l; cycle 1.
  { apply length_lincomb. by apply Forall_cons. }
  simpl. rewrite lincomb_zero_vec by done.
  apply vadd_zero_r. by rewrite length_fmap.
Qed.

(** [p] times the identity, multiplied by a matrix, scales the matrix. *)
Lemma dot_scaled_eye (n w : nat) (p : C) (m : Matrix C) :
  has_shape n w m →
  dot (np_mul_scalar (np_eye (Z.of_nat n)) p) m = rmul p m.
Proof.
  intros Hm. pose proof Hm as [Hn Fm].
  unfold dot, np_mul_scalar, np_eye, rmul. rewrite Nat2Z.id.
  apply list_eq. intros i. rewrite !list_lookup_fmap.
  destruct (m !! i) as [row|] eqn:Hrow.
  - pose proof (lookup_lt_Some _ _ _ Hrow) as Hi.
    rewrite lookup_seq_lt by lia. simpl. f_equal.
    rewrite eye_row_split by lia.
    rewrite fmap_app, fmap_cons, !fmap_replicate.
    replace (0 * p)%S with (0%S : C) by ring.
    replace (1 * p)%S with p by ring.
    by apply (vec_mat_unit w n).
  - apply lookup_ge_None in Hrow.
    by rewrite lookup_seq_ge by lia.
Qed.

Lemma rmul_scaled_eye (n : nat) (p q : C) :
  rmul p (np_mul_scalar (np_eye (Z.of_nat n)) q) =
  np_mul_scalar (np_eye (Z.of_nat n)) (p * q)%S.
Proof.
  unfold rmul, np_mul_scalar. rewrite <- list_fmap_compose.
  apply list_fmap_ext. intros _ row _. simpl.
  rewrite <- list_fmap_compose. apply list_fmap_ext. intros _ x _. simpl. ring.
Qed.

Lemma embed_matrix_dot_fits (p1 p2 : C) (upper : bool)
    (A B : Matrix C) (n : Z) (d : nat) (FA FB : Matrix C) :
  has_shape d d A → has_shape d d B → (0 ≤ n)%Z → (Z.of_nat d ≤ 2 ^ n)%Z →
  embed_matrix {| _padding := p1; _embed_upper := upper |} A n = Ok FA →
  embed_matrix {| _padding := p2; _embed_upper := upper |} B n = Ok FB →
  embed_matrix {| _padding := (p1 * p2)%S; _embed_upper := upper |} (dot A B) n
    = Ok (dot FA FB).
Proof.
  intros HA HB Hn Hle HFA HFB.
  pose proof HA as [HlenA _]. pose proof HB as [HlenB _].
  pose proof (has_shape_dot d A B HA HB) as HAB. pose proof HAB as [HlenAB _].
  set (diff := Z.to_nat (2 ^ n) - d).
  assert ((2 ^ n)%Z = Z.of_nat (d + diff)) as Hfull by (subst diff; lia).
  destruct (decide (diff = 0)) as [Hz|Hnz].
  - rewrite embed_matrix_same_dim in HFA by (done || (unfold shape0; lia)).
    rewrite embed_matrix_same_dim in HFB by (done || (unfold shape0; lia)).
    injection HFA as <-. injection HFB as <-.
    apply embed_matrix_same_dim; [done|unfold shape0; lia].
  - pose proof (has_shape_np_mul_scalar _ _ _ p1 (has_shape_np_eye (C:=C) diff))
      as He1.
    pose proof (has_shape_np_mul_scalar _ _ _ p2 (has_shape_np_eye (C:=C) diff))
      as He2.
    destruct upper.
    + rewrite (embed_matrix_upper _ A n d diff) in HFA by (done || lia).
      rewrite (embed_matrix_upper _ B n d diff) in HFB by (done || lia).
      rewrite (embed_matrix_upper _ (dot A B) n d diff) by (done || lia).
      injection HFA as <-. injection HFB as <-. simpl. f_equal.
      rewrite dot_np_block by done.
      by rewrite (dot_scaled_eye diff diff), rmul_scaled_eye.
    + rewrite (embed_matrix_lower _ A n d diff) in HFA by (done || lia).
      rewrite (embed_matrix_lower _ B n d diff) in HFB by (done || lia).
      rewrite (embed_matrix_lower _ (dot A B) n d diff) by (done || lia).
      injection HFA as <-. injection HFB as <-. simpl. f_equal.
      rewrite dot_np_block by done.
      by rewrite (dot_scaled_eye diff diff), rmul_scaled_eye.
Qed.

(** X13.  The embedding is multiplicative: for two square matrices of one
    size embedded on the same side, the product of the embedded matrices
    is the product of the matrices, embedded with the product of the two
    paddings.  With padding 0 or 1 the embedding of a product is the
    product of the embeddings. *)
Theorem embed_matrix_dot (p1 p2 : C) (upper : bool)
    (A B : Matrix C) (n : Z) (d : nat) (FA FB : Matrix C) :
  has_shape d d A → has_shape d d B →
  embed_matrix {| _padding := p1; _embed_upper := upper |} A n = Ok FA →
  embed_matrix {| _padding := p2; _embed_upper := upper |} B n = Ok FB →
  embed_matrix {| _padding := (p1 * p2)%S; _embed_upper := upper |} (dot A B) n
    = Ok (dot FA FB) ∧
  has_shape (Z.to_nat (2 ^ n)) (Z.to_nat (2 ^ n)) (dot FA FB).
Proof.
  intros HA HB HFA HFB.
  destruct (embed_matrix_Ok_inv _ _ _ _ HFA) as [Hn Hle].
  pose proof HA as [HlenA _]. unfold shape0 in Hle. rewrite HlenA in Hle.
  pose proof (embed_matrix_dot_fits p1 p2 upper A B n d FA FB
                HA HB Hn Hle HFA HFB) as Hdot.
  split; [exact Hdot|].
  destruct (embed_matrix_shape {| _padding := (p1 * p2)%S; _embed_upper := upper |}
              (dot A B) n d (has_shape_dot d A B HA HB) Hn Hle)
    as (F & HF & Hshape).
  rewrite Hdot in HF. by injection HF as <-.
Qed.
End EmbedProduct.

(** ** [_map_single]: scaling the coefficients, one more site *)

Section MapSingleLinear.
Context {C : Type} `{ScalarRing C}.
Local Open Scope nat_scope.

Add Ring scalar_ring_linear : scalar_ring.

Implicit Types (cm : axis → Matrix C) (identity : Matrix C).

Lemma rmul_add (a : C) (x y : Matrix C) :
  rmul a (add x y) = add (rmul a x) (rmul a y).
Proof.
  unfold rmul, add. revert y.
  induction x as [|r1 x IH]; intros [|r2 y]; simpl; try done.
  f_equal; [|apply IH]. clear IH. revert r2.
  induction r1 as [|u r1 IH]; intros [|v r2]; simpl; try done.
  f_equal; [ring|apply IH].
Qed.

(** X10.  The mapping is homogeneous: multiplying the coefficient of
    every term by [a] multiplies the mapped operator by [a], and raises
    when the mapping of the given terms raises. *)
Theorem map_terms_coefficient cm identity (rl : Z) (a : C)
    (ts : list (term C)) :
  map_terms cm identity rl ((λ tc : term C, (tc.1, (a * tc.2)%S)) <$> ts) =
    v ← map_terms cm identity rl ts; mret (rmul a v).
Proof.
  induction ts as [|[t c] ts IH]; [done|].
  rewrite fmap_cons, !map_terms_cons. cbn [fst snd].
  rewrite map_term_coefficient.
  destruct (map_term cm identity rl (t, c)) as [v|e]; [|done].
  cbn [mbind result_bind mret result_ret].
  destruct ts as [|tc ts]; [done|].
  rewrite fmap_cons in *. rewrite IH.
  destruct (map_terms cm identity rl (tc :: ts)) as [w|e]; [|done].
  simpl. by rewrite rmul_add.
Qed.

Lemma entry_rmul (c : C) (m : Matrix C) i j :
  entry (rmul c m) i j = cmul c <$> entry m i j.
Proof.
  unfold entry, rmul. rewrite list_lookup_fmap.
  destruct (m !! i) as [row|]; simpl; [|done].
  by rewrite list_lookup_fmap.
Qed.

Lemma tensor_rmul_r ra ca rb cb (c : C) (a b : Matrix C) :
  0 < rb → 0 < cb → has_shape ra ca a → has_shape rb cb b →
  tensor a (rmul c b) = rmul c (tensor a b).
Proof.
  intros Hrb Hcb Ha Hb.
  apply (matrix_ext (ra * rb) (ca * cb)).
  - by apply has_shape_tensor, has_shape_rmul.
  - by apply has_shape_rmul, has_shape_tensor.
  - intros i j _ _.
    rewrite entry_rmul, !(entry_tensor rb cb) by (done || by apply has_shape_rmul).
    rewrite entry_rmul.
    destruct (entry a (i / rb) (j / cb)) as [x|]; simpl; [|done].
    destruct (entry b (i mod rb) (j mod cb)) as [y|]; simpl; [|done].
    f_equal. ring.
Qed.

Lemma div_mod_nested (i b c : nat) :
  0 < c →
  (i / c) / b = i / (b * c) ∧
  (i mod (b * c)) / c = (i / c) mod b ∧
  (i mod (b * c)) mod c = i mod c.
Proof.
  intros Hc. split; [|split].
  - by rewrite Nat.Div0.div_div, (Nat.mul_comm c b).
  - rewrite (Nat.mul_comm b c), Nat.Div0.mod_mul_r.
    set (q := (i / c) mod b).
    replace (i mod c + c * q) with (q * c + i mod c) by lia.
    rewrite Nat.div_add_l by lia.
    rewrite (Nat.div_small (i mod c)); [lia|]. apply Nat.mod_upper_bound. lia.
  - rewrite (Nat.mul_comm b c), Nat.Div0.mod_mul_r.
    set (q := (i / c) mod b).
    replace (i mod c + c * q) with (i mod c + q * c) by lia.
    rewrite Nat.Div0.mod_add. apply Nat.Div0.mod_mod.
Qed.

(** The Kronecker product is associative. *)
Lemma tensor_assoc ra ca rb cb rc cc (a b c : Matrix C) :
  0 < rb → 0 < cb → 0 < rc → 0 < cc →
  has_shape ra ca a → has_shape rb cb b → has_shape rc cc c →
  tensor (tensor a b) c = tensor a (tensor b c).
Proof.
  intros Hrb Hcb Hrc Hcc Ha Hb Hc.
  pose proof (has_shape_tensor _ _ _ _ _ _ Ha Hb) as Hab.
  pose proof (has_shape_tensor _ _ _ _ _ _ Hb Hc) as Hbc.
  apply (matrix_ext (ra * rb * rc) (ca * cb * cc)).
  - by apply has_shape_tensor.
  - rewrite <- !Nat.mul_assoc. by apply has_shape_tensor.
  - intros i j _ _.
    rewrite (entry_tensor rc cc) by done.
    rewrite (entry_tensor rb cb) by done.
    rewrite (entry_tensor (rb * rc) (cb * cc)) by (done || nia).
    rewrite (entry_tensor rc cc) by done.
    destruct (div_mod_nested i rb rc Hrc) as (-> & -> & ->).
    destruct (div_mod_nested j cb cc Hcc) as (-> & -> & ->).
    destruct (entry a _ _) as [x|]; simpl; [|done].
    destruct (entry b _ _) as [y|]; simpl; [|done].
    destruct (entry c _ _) as [z|]; simpl; [|done].
    f_equal. ring.
Qed.

Lemma site_tensor_snoc (n : nat) (ops : list (Matrix C)) (x big : Matrix C) :
  0 < n → Forall (has_shape n n) ops → has_shape n n x →
  site_tensor ops = Some big →
  site_tensor (ops ++ [x]) = Some (tensor x big).
Proof.
  intros Hn Hops Hx. revert big.
  induction Hops as [|o rest Ho Hrest IH]; intros big; [done|].
  cbn [site_tensor app]. destruct (site_tensor rest) as [high|] eqn:Hhigh.
  - intros [= <-]. rewrite (IH high eq_refl).
    f_equal.
    pose proof (site_tensor_shape n rest high Hrest Hhigh) as Hh.
    assert (0 < n ^ length rest) by (apply Nat.neq_0_lt_0, Nat.pow_nonzero; lia).
    by apply (tensor_assoc n n (n ^ length rest) (n ^ length rest) n n).
  - intros [= <-]. destruct rest as [|o' rest'].
    + done.
    + simpl in Hhigh. by destruct (site_tensor rest').
Qed.

Lemma operatorlist_succ identity (mat : gmap Z (Matrix C)) (rl : Z) :
  (0 ≤ rl)%Z →
  operatorlist identity mat (rl + 1) =
    operatorlist identity mat rl ++ [default identity (mat !! rl)].
Proof.
  intros Hrl. unfold operatorlist.
  rewrite seqZ_app by lia. rewrite fmap_app. f_equal.
Qed.

(** X15.  One more site at the end of the register, not touched by the
    term, puts the encoded identity as a new leftmost tensor factor: the
    operator of the term over [register_length + 1] sites is the tensor
    product of the encoded identity by its operator over
    [register_length] sites. *)
Theorem map_term_extra_site (n : nat) cm identity (rl : Z)
    (t : list factor) (c : C) (v : Matrix C) :
  0 < n → (∀ a, has_shape n n (cm a)) → has_shape n n identity →
  (0 < rl)%Z → (∀ f, f ∈ t → f.2 ≠ rl) →
  map_term cm identity rl (t, c) = Ok v →
  map_term cm identity (rl + 1) (t, c) = Ok (tensor identity v).
Proof.
  intros Hn Hcm Hid Hrl Hfree. rewrite !map_term_site_tensor.
  destruct (site_tensor (operatorlist identity (accumulate cm t) rl))
    as [big|] eqn:Hbig; [|done].
  intros [= <-].
  assert (Forall (has_shape n n) (operatorlist identity (accumulate cm t) rl))
    as Hops.
  { unfold operatorlist. apply Forall_fmap, Forall_forall. intros i _. simpl.
    rewrite accumulate_lookup.
    destruct (site_product cm (factors_at i t)) as [m|] eqn:Hm; [|done].
    simpl. by apply (site_product_shape n cm (factors_at i t)). }
  rewrite operatorlist_succ by lia.
  assert (accumulate cm t !! rl = None) as ->.
  { apply not_elem_of_dom. rewrite accumulate_dom_aux.
    intros Hin. apply elem_of_list_to_set, list_elem_of_fmap in Hin
      as (f & Hf & Hin). by apply (Hfree f). }
  simpl. rewrite (site_tensor_snoc n _ identity big) by done.
  f_equal. symmetry.
  pose proof (site_tensor_shape n _ big Hops Hbig) as Hshape.
  rewrite operatorlist_length in Hshape.
  assert (0 < n ^ Z.to_nat rl) by (apply Nat.neq_0_lt_0, Nat.pow_nonzero; lia).
  by apply (tensor_rmul_r n n (n ^ Z.to_nat rl) (n ^ Z.to_nat rl)).
Qed.
End MapSingleLinear.

(** ** The encoding and products of spin matrices *)

Section EncodedProducts.
Context {C : Type} `{ScalarRing C} `{SpinOpMethods C}.

Lemma logarithmic_encoding_inv (self : LogarithmicMapper C) (s : Q) (n : Z)
    ex ey ez ei :
  num_qubits_of s = Ok n →
  logarithmic_encoding self s = Ok (ex, ey, ez, ei) →
  (∀ a, embed_matrix self (SpinOp_matrix a s) n = Ok (char_map ex ey ez a)) ∧
  embed_matrix self (np_eye (dspin_of s)) n = Ok ei.
Proof.
  intros Hn. unfold logarithmic_encoding. unfold num_qubits_of in Hn.
  rewrite Hn. cbn [mbind result_bind].
  destruct (embed_matrix self (SpinOp_matrix X s) n) as [fx|e] eqn:Hx; [|done].
  cbn [mbind result_bind].
  destruct (embed_matrix self (SpinOp_matrix Y s) n) as [fy|e] eqn:Hy; [|done].
  cbn [mbind result_bind].
  destruct (embed_matrix self (SpinOp_matrix Z_ s) n) as [fz|e] eqn:Hz; [|done].
  cbn [mbind result_bind].
  destruct (embed_matrix self (np_eye (dspin_of s)) n) as [fi|e]; [|done].
  simpl. intros [= <- <- <- <-]. split; [|done]. intros a. by destruct a.
Qed.

(** X14.  When the padding [p] satisfies [p * p = p] (the default 1, or
    0) and the spin matrices are square of size [2s+1], the operator
    accumulated at a site is the embedding of the ordered product of the
    spin matrices of the factors at this site: products of encoded
    operators are encoded products. *)
Theorem site_product_encoded (self : LogarithmicMapper C) (s : Q)
    (d : nat) (n : Z) ex ey ez ei (axes : list axis) (m : Matrix C) :
  (_padding self * _padding self)%S = _padding self →
  (∀ a, has_shape d d (SpinOp_matrix a s)) →
  num_qubits_of s = Ok n →
  logarithmic_encoding self s = Ok (ex, ey, ez, ei) →
  site_product (λ a, SpinOp_matrix a s) axes = Some m →
  ∃ F, embed_matrix self m n = Ok F ∧
       site_product (char_map ex ey ez) axes = Some F.
Proof.
  intros Hpp Hsq Hn Henc Hm.
  destruct (logarithmic_encoding_inv self s n ex ey ez ei Hn Henc) as [Hcm _].
  destruct axes as [|a rest]; [done|]. simpl in Hm. injection Hm as <-.
  simpl.
  assert (∀ m0 F0, has_shape d d m0 → embed_matrix self m0 n = Ok F0 →
            embed_matrix self
              (foldl (λ m b, dot m (SpinOp_matrix b s)) m0 rest) n =
            Ok (foldl (λ m b, dot m (char_map ex ey ez b)) F0 rest)) as Hfold.
  { induction rest as [|b rest IH]; intros m0 F0 Hm0 HF0; [done|].
    simpl. apply IH; [by apply has_shape_dot|].
    destruct (embed_matrix_Ok_inv _ _ _ _ HF0) as [Hn0 Hle].
    destruct Hm0 as [Hlen0 Fm0]. unfold shape0 in Hle. rewrite Hlen0 in Hle.
    destruct self as [p upper]. simpl in Hpp. rewrite <- Hpp.
    by apply (embed_matrix_dot_fits p p upper m0 (SpinOp_matrix b s) n d). }
  eexists. split; [|done]. by apply Hfold.
Qed.
End EncodedProducts.

(** ** Instances of the further properties *)

Module MoreExamples.
Import Pauli PauliFacts.

Lemma m3_shape : has_shape 3 3 m3.
Proof. split; [reflexivity | repeat constructor]. Qed.

Lemma sigma_shape (a : axis) : has_shape 2 2 (sigma a).
Proof. destruct a; (split; [reflexivity | repeat constructor]). Qed.

Lemma embed_matrix_recovers_block_witness :
  ∃ F, embed_matrix (mapper 7 false) m3 2 = Ok F ∧
       drop (length F - 3) <$> drop (length F - 3) F = m3.
Proof.
  eexists. split; [reflexivity|].
  exact (embed_matrix_recovers_block (mapper 7 false) m3 2 3 _ m3_shape eq_refl).
Defined.

Lemma embed_matrix_twice_witness :
  ∃ F, embed_matrix (mapper 7 true) m3 2 = Ok F ∧
       embed_matrix (mapper 5 false) F 2 = Ok F.
Proof.
  eexists. split; [reflexivity|].
  exact (embed_matrix_twice (mapper 7 true) (mapper 5 false) m3 2 3 _
           m3_shape eq_refl).
Defined.

Lemma embed_matrix_outcome_witness :
  match embed_matrix (mapper 7 true) m3 2 with
  | Ok F => 0 ≤ 2 ∧ 3 ≤ 2 ^ 2 ∧ has_shape 4 4 F
  | Raise e => class_of e = ValueError ∧ (2 < 0 ∨ 2 ^ 2 < 3)
  end ∧
  match embed_matrix (mapper 7 true) m3 1 with
  | Ok F => 0 ≤ 1 ∧ 3 ≤ 2 ^ 1 ∧ has_shape 2 2 F
  | Raise e => class_of e = ValueError ∧ (1 < 0 ∨ 2 ^ 1 < 3)
  end.
Proof.
  split.
  - exact (embed_matrix_outcome (mapper 7 true) m3 2 3 m3_shape).
  - exact (embed_matrix_outcome (mapper 7 true) m3 1 3 m3_shape).
Defined.

Lemma logarithmic_encoding_power_of_two_witness :
  logarithmic_encoding (mapper 7 false) (1 # 2)%Q =
    Ok (sigma X, sigma Y, sigma Z_, np_eye (2 ^ 1)).
Proof.
  assert (∀ a, shape0 (SpinOp_matrix a (1 # 2)%Q) = 2 ^ 1) as Hrows
    by (intros a; by destruct a).
  exact (logarithmic_encoding_power_of_two (mapper 7 false) (1 # 2)%Q 1
           ltac:(lia) eq_refl Hrows).
Defined.

Lemma map_terms_per_site_order_witness :
  map_terms sigma sigma_0 2 [([(Y, 1); (X, 0); (Z_, 0)], (1, 0))] =
  map_terms sigma sigma_0 2 [([(X, 0); (Z_, 0); (Y, 1)], (1, 0))].
Proof.
  apply map_terms_per_site_order.
  constructor; [|constructor].
  split; [reflexivity|]. intros i.
  exact (eq_sym (factors_at_sort i [(Y, 1); (X, 0); (Z_, 0)])).
Defined.

Lemma map_terms_coefficient_witness :
  map_terms sigma sigma_0 2
    [([(X, 1)], cmul (2, 0) (0, 1)); ([(Z_, 0)], cmul (2, 0) (3, 0))] =
    v ← map_terms sigma sigma_0 2 [([(X, 1)], (0, 1)); ([(Z_, 0)], (3, 0))];
    mret (rmul (2, 0) v).
Proof.
  exact (map_terms_coefficient sigma sigma_0 2 (2, 0)
           [([(X, 1)], (0, 1)); ([(Z_, 0)], (3, 0))]).
Defined.

Lemma map_term_extra_site_witness :
  ∃ v, map_term sigma sigma_0 1 ([(X, 0)], (3, 0)) = Ok v ∧
       map_term sigma sigma_0 (1 + 1) ([(X, 0)], (3, 0)) = Ok (tensor sigma_0 v).
Proof.
  eexists. split; [reflexivity|].
  apply (map_term_extra_site 2 sigma sigma_0 1 [(X, 0)] (3, 0)).
  - lia.
  - apply sigma_shape.
  - split; [reflexivity | repeat constructor].
  - lia.
  - intros f Hf. apply list_elem_of_singleton in Hf as ->. discriminate.
  - reflexivity.
Defined.

Lemma map_terms_Permutation_witness :
  map_terms sigma sigma_0 1 [([(X, 0)], (2, 0)); ([(Z_, 0)], (0, 1))] =
  map_terms sigma sigma_0 1 [([(Z_, 0)], (0, 1)); ([(X, 0)], (2, 0))].
Proof. apply map_terms_Permutation. apply perm_swap. Defined.

Lemma map_single_shape_witness :
  ∃ v, map_single (mapper 1 true)
         {| spin := (1 # 2)%Q; register_length := 3;
            terms := [([(X, 1)], (3, 0))] |} None = Ok v ∧
       has_shape 8 8 v.
Proof.
  eexists. split; [vm_compute; reflexivity|].
  apply (map_single_shape (mapper 1 true)
           {| spin := (1 # 2)%Q; register_length := 3;
              terms := [([(X, 1)], (3, 0))] |} None 2 1).
  - apply sigma_shape.
  - reflexivity.
  - reflexivity.
  - vm_compute. reflexivity.
Defined.

Lemma embed_matrix_dot_witness :
  ∃ FA FB,
    embed_matrix (mapper 2 true) m3 2 = Ok FA ∧
    embed_matrix (mapper 3 true) m3 2 = Ok FB ∧
    embed_matrix {| _padding := cmul (2, 0) (3, 0); _embed_upper := true |}
      (dot m3 m3) 2 = Ok (dot FA FB) ∧
    has_shape 4 4 (dot FA FB).
Proof.
  eexists _, _. split; [reflexivity|]. split; [reflexivity|].
  exact (embed_matrix_dot (2, 0) (3, 0) true m3 m3 2 3 _ _
           m3_shape m3_shape eq_refl eq_refl).
Defined.

Lemma site_product_encoded_witness :
  ∃ F, embed_matrix (mapper 1 true) (dot (sigma X) (sigma Z_)) 1 = Ok F ∧
       site_product (char_map (sigma X) (sigma Y) (sigma Z_)) [X; Z_] = Some F.
Proof.
  apply (site_product_encoded (mapper 1 true) (1 # 2)%Q 2 1
           (sigma X) (sigma Y) (sigma Z_) sigma_0 [X; Z_]).
  - reflexivity.
  - apply sigma_shape.
  - reflexivity.
  - reflexivity.
  - reflexivity.
Defined.
End MoreExamples.
